(** * The parallel best-submatrix search of [matrix_solver.c]

    A shallow embedding of the two programs of the repository,
    [matrix_solver.c] (MPI + OpenMP, two workers) and [matrix_solver_1.c]
    (OpenMP only), and the proofs of the properties their design document
    states about them.

    Conventions of the embedding.
    - A C [int] is a [Z].  On validated parameters (dimensions at most 1000,
      generated entries of two or three digits, at most a million cells
      counted in a window) no [int] operation of the program comes near the
      32-bit limits, so no wrap-around is written.
    - A C [double] is an IEEE 754 binary64 number, a [spec_float] with
      precision 53 and maximal exponent 1024; sums are rounded to nearest
      even as [SFadd] does.
    - [log] comes from the C mathematical library, which is not part of the
      repository: it is a parameter of the embedding.
    - [rand] and [srand] come from the C library too: the generator is
      parameterised by the hidden state of the pseudo-random number generator.
    - [int **matrix] is a list of rows; a read outside the allocated block
      (undefined in C) yields 0 in the model. *)

From Stdlib Require Import ZArith Lia Floats.SpecFloat.
From stdpp Require Import base option list list_numbers.

Local Open Scope Z_scope.

(** ** Binary64 arithmetic as the program uses it *)

Module Double.

Definition double : Type := spec_float.

Definition prec : Z := 53.
Definition emax : Z := 1024.

(** The literal [0.0]. *)
Definition zero : double := S754_zero false.

(** [-INFINITY]. *)
Definition neg_infinity : double := S754_infinity true.

(** [x + y] on doubles. *)
Definition add (x y : double) : double := SFadd prec emax x y.

(** The implicit conversion of an [int] to [double]; it is exact. *)
Definition of_int (z : Z) : double := binary_normalize prec emax z 0 false.

(** [x > y] on doubles: false as soon as one side is a NaN. *)
Definition gt (x y : double) : bool := SFltb y x.

(** [x >= y] on doubles. *)
Definition ge (x y : double) : bool := SFleb y x.

Definition is_nan (x : double) : bool :=
  match x with S754_nan => true | _ => false end.

(** The values a sum of logarithms of positive integers can take:
    [+0], a positive finite number or [+INFINITY]. *)
Definition nonneg (x : double) : bool :=
  match x with
  | S754_zero s | S754_infinity s | S754_finite s _ _ => negb s
  | S754_nan => false
  end.

End Double.

Import Double.

(** ** Data model *)

Definition MAX_MATRIX_SIZE : Z := 1000.
Definition MIN_VALUE : Z := -100.
Definition MAX_VALUE : Z := 100.

(** [int **matrix]: the rows of the allocated block. *)
Abbreviation matrix := (list (list Z)).

(** [matrix[i][j]]. *)
Definition cell (m : matrix) (i j : Z) : Z :=
  if (i <? 0) || (j <? 0) then 0
  else default 0 (m !! Z.to_nat i ≫= λ r, r !! Z.to_nat j).

(** The block has [N] rows of [M] entries each. *)
Definition has_shape (N M : Z) (m : matrix) : Prop :=
  Z.of_nat (length m) = N ∧ Forall (λ r, Z.of_nat (length r) = M) m.

Record SubmatrixResult : Type := mkResult {
  row : Z;
  col : Z;
  max_log_product : double
}.

(** The initial value [{-1, -1, -INFINITY}] of every running best. *)
Definition sentinel : SubmatrixResult := mkResult (-1) (-1) neg_infinity.


(** An execution of an OpenMP parallel region over a collapsed loop nest:
    for every thread of the team, in the order the threads enter the critical
    section, the iterations [(i, j)] it ran, in the order it ran them. *)
Abbreviation schedule := (list (list (Z * Z))).

(** [matrix[i][j] = v]. *)
Definition set_cell (m : matrix) (i j v : Z) : matrix :=
  if (i <? 0) || (j <? 0) then m
  else alter (λ r, <[Z.to_nat j := v]> r) (Z.to_nat i) m.

Section Program.

(** [log] of the C mathematical library. *)
Variable log : double → double.

(** The pseudo-random number generator of the C library: its hidden state,
    the state [srand(seed)] leaves (C promises that the sequence that
    follows depends on the seed alone), and [rand()], which returns a
    number and advances the state. *)
Variable rng : Type.
Variable srand : Z → rng.
Variable rand : rng → Z * rng.

(** ** MatrixGenerator *)

(** The body of the inner loop of [generate_random_matrix].  The second
    [rand()] is only called when the entry just stored is even, as [&&]
    evaluates its right operand only then. *)
Definition generate_cell (i : Z) (s : matrix * rng) (j : Z) : matrix * rng :=
  let '(m, g) := s in
  let '(r, g) := rand g in
  let m := set_cell m i j (Z.rem r (MAX_VALUE - MIN_VALUE + 1) + MIN_VALUE) in
  if Z.rem (cell m i j) 2 =? 0 then
    let '(r', g) := rand g in
    if Z.rem r' 3 =? 0 then (set_cell m i j (cell m i j + 1), g) else (m, g)
  else (m, g).

(** The two loops, after [srand(seed)]. *)
Definition generate_from (seed : Z) (m : matrix) (N M : Z) : matrix * rng :=
  foldl (λ s i, foldl (generate_cell i) s (seqZ 0 M)) (m, srand seed) (seqZ 0 N).

(** [generate_random_matrix] of [matrix_solver.c]: [srand(42)].  The state
    is the block [matrix] points to and the generator's state on entry. *)
Definition generate_random_matrix (s : matrix * rng) (N M : Z) : matrix * rng :=
  generate_from 42 s.1 N M.

(** [generate_random_matrix] of [matrix_solver_1.c]: [srand(time(NULL))],
    where [now] is what [time] returns. *)
Definition generate_random_matrix_1 (now : Z) (s : matrix * rng) (N M : Z)
  : matrix * rng :=
  generate_from now s.1 N M.

(** ** ScoringFunction *)

(** [is_odd]: [abs(num) % 2 == 1]. *)
Definition is_odd (num : Z) : bool := Z.rem (Z.abs num) 2 =? 1.

(** The body of the inner loop of [calculate_log_product_submatrix], on the
    locals [(log_sum, odd_count)]. *)
Definition score_cell (m : matrix) (i : Z) (acc : double * Z) (j : Z)
  : double * Z :=
  let '(log_sum, odd_count) := acc in
  if is_odd (cell m i j) && negb (cell m i j =? 0)
  then (add log_sum (log (of_int (Z.abs (cell m i j)))), odd_count + 1)
  else (log_sum, odd_count).

(** The two nested loops: [i] from [start_row] and [j] from [start_col],
    [K] steps each. *)
Definition score_loops (m : matrix) (start_row start_col K : Z) : double * Z :=
  foldl (λ acc i, foldl (score_cell m i) acc (seqZ start_col K))
        (zero, 0) (seqZ start_row K).

Definition calculate_log_product_submatrix
    (m : matrix) (start_row start_col K : Z) : double :=
  let '(log_sum, odd_count) := score_loops m start_row start_col K in
  if 0 <? odd_count then log_sum else neg_infinity.

(** ** LocalSearchEngine *)

Definition is_valid_submatrix (i j K N M : Z) : bool :=
  (i + K <=? N) && (j + K <=? M).

(** The body of the collapsed loop nest, run by one thread on its private
    [local_best]. *)
Definition scan_window (m : matrix) (N M K : Z)
    (local_best : SubmatrixResult) (ij : Z * Z) : SubmatrixResult :=
  let '(i, j) := ij in
  if is_valid_submatrix i j K N M then
    let current_log_product := calculate_log_product_submatrix m i j K in
    if gt current_log_product (max_log_product local_best)
    then mkResult i j current_log_product
    else local_best
  else local_best.

(** One thread of the team: from the sentinel, the iterations the dynamic
    schedule hands it, in the order it runs them. *)
Definition scan_thread (m : matrix) (N M K : Z) (its : list (Z * Z))
  : SubmatrixResult :=
  foldl (scan_window m N M K) sentinel its.

(** The critical section. *)
Definition critical (best_result local_best : SubmatrixResult)
  : SubmatrixResult :=
  if gt (max_log_product local_best) (max_log_product best_result)
  then local_best else best_result.

(** The iteration space of [collapse(2)]: [i] in [0, N-K] and [j] in
    [0, M-K], in row-major order. *)
Definition iteration_space (N M K : Z) : list (Z * Z) :=
  i ← seqZ 0 (N - K + 1); j ← seqZ 0 (M - K + 1); [(i, j)].


(** OpenMP runs every iteration of the space exactly once, on some thread. *)
Definition omp_schedule (N M K : Z) (sched : schedule) : Prop :=
  concat sched ≡ₚ iteration_space N M K.

Definition find_best_submatrix_parallel
    (m : matrix) (N M K : Z) (sched : schedule) : SubmatrixResult :=
  foldl critical sentinel (scan_thread m N M K <$> sched).

(** A team of one thread: the plain sequential scan. *)
Definition sequential (N M K : Z) : schedule := [iteration_space N M K].

(** ** PartitionCoordinator *)

(** [N / 2] on [int]: the quotient truncates. *)
Definition half_of (N : Z) : Z := Z.quot N 2.

(** The block process 1 receives: rows [half .. N-1] of the matrix of
    process 0, [M] integers each, stored from row 0 on. *)
Definition received_block (m : matrix) (N M : Z) : matrix :=
  (λ i, (λ j, cell m i j) <$> seqZ 0 M) <$> seqZ (half_of N) (N - half_of N).

(** Process 0: the search over the first [half] rows of its matrix. *)
Definition rank0_search (m : matrix) (N M K : Z) (sched : schedule)
  : SubmatrixResult :=
  find_best_submatrix_parallel m (half_of N) M K sched.

(** [local_result.row += half]. *)
Definition adjust_row (r : SubmatrixResult) (half : Z) : SubmatrixResult :=
  mkResult (row r + half) (col r) (max_log_product r).

(** Process 1: the search over the received block, and the result it
    sends back. *)
Definition rank1_search (m : matrix) (N M K : Z) (sched : schedule)
  : SubmatrixResult :=
  adjust_row
    (find_best_submatrix_parallel (received_block m N M) (N - half_of N) M K sched)
    (half_of N).

(** "Select better result": the conditional expression of [main]. *)
Definition select_better (local_result other_result : SubmatrixResult)
  : SubmatrixResult :=
  if gt (max_log_product local_result) (max_log_product other_result)
  then local_result else other_result.

(** The search of the two processes together, on the matrix of process 0;
    [sched0] and [sched1] are the executions of the two parallel regions. *)
Definition coordinated_search (m : matrix) (N M K : Z) (sched0 sched1 : schedule)
  : SubmatrixResult :=
  select_better (rank0_search m N M K sched0) (rank1_search m N M K sched1).

(** ** Parameters and the two [main] functions *)

Definition validate_parameters (N M K : Z) : Z :=
  if (N <=? 0) || (M <=? 0) || (K <=? 0) then 0
  else if (K >? N) || (K >? M) then 0
  else if (N >? MAX_MATRIX_SIZE) || (M >? MAX_MATRIX_SIZE) then 0
  else 1.

(** How a run ends, as process 0 reports it. *)
Inductive outcome : Type :=
| WrongProcessCount
    (* "must be run with exactly 2 MPI processes", exit status 1 *)
| InvalidParameters
    (* validate_parameters returned 0: MPI_Abort, or exit status 1 *)
| BestFound (generated : matrix) (result : SubmatrixResult)
    (* "Best submatrix found at position" *)
| NoneFound (generated : matrix) (result : SubmatrixResult).
    (* "No valid submatrix found with odd elements" *)

(** The report at the end of both [main] functions. *)
Definition report (generated : matrix) (result : SubmatrixResult) : outcome :=
  if negb (row result =? -1) && negb (col result =? -1)
  then BestFound generated result
  else NoneFound generated result.

(** [main] of [matrix_solver.c].  [size] is the number of MPI processes,
    [N M K] what [scanf] reads, [s] the freshly allocated block with the
    generator's state, [sched0] and [sched1] the executions of the two
    parallel regions.  Nothing is allocated, generated or searched on the
    first two branches. *)
Definition main (size N M K : Z) (s : matrix * rng) (sched0 sched1 : schedule)
  : outcome :=
  if negb (size =? 2) then WrongProcessCount
  else if validate_parameters N M K =? 0 then InvalidParameters
  else
    let generated := (generate_random_matrix s N M).1 in
    report generated (coordinated_search generated N M K sched0 sched1).

(** [main] of [matrix_solver_1.c]. *)
Definition main_1 (now N M K : Z) (s : matrix * rng) (sched : schedule)
  : outcome :=
  if validate_parameters N M K =? 0 then InvalidParameters
  else
    let generated := (generate_random_matrix_1 now s N M).1 in
    report generated (find_best_submatrix_parallel generated N M K sched).

End Program.

Arguments generate_cell {rng} rand i s j.
Arguments generate_from {rng} srand rand seed m N M.
Arguments generate_random_matrix {rng} srand rand s N M.
Arguments generate_random_matrix_1 {rng} srand rand now s N M.
Arguments main log {rng} srand rand size N M K s sched0 sched1.
Arguments main_1 log {rng} srand rand now N M K s sched.

(** ** Reference definitions *)

(** The cells of the [K] by [K] window at [(start_row, start_col)], row by
    row. *)
Definition window_cells (m : matrix) (start_row start_col K : Z) : list Z :=
  i ← seqZ start_row K; j ← seqZ start_col K; [cell m i j].

(** A qualifying cell in the design's words: its absolute value is odd, and
    it is not zero. *)
Definition qualifying (v : Z) : bool := Z.odd (Z.abs v) && negb (v =? 0).

(** The log-score in the design's words: the sum, from [0.0] on and in
    row-major order, of [ln |v|] over the qualifying cells of the window, and
    negative infinity when there is none. *)
Definition log_score (log : double → double)
    (m : matrix) (start_row start_col K : Z) : double :=
  match filter (λ v, qualifying v = true) (window_cells m start_row start_col K) with
  | [] => neg_infinity
  | vs => foldl add zero ((λ v, log (of_int (Z.abs v))) <$> vs)
  end.

(** The inner loop body of the scoring function as a function of the cell's
    value alone. *)
Definition score_value (log : double → double) (acc : double * Z) (v : Z)
  : double * Z :=
  if qualifying v then (add acc.1 (log (of_int (Z.abs v))), acc.2 + 1) else acc.

(** The result a window contributes to a reduction when it wins. *)
Definition candidate (log : double → double) (m : matrix) (K : Z) (ij : Z * Z)
  : SubmatrixResult :=
  mkResult ij.1 ij.2 (calculate_log_product_submatrix log m ij.1 ij.2 K).

(** The iterations that pass the test of [is_valid_submatrix]. *)
Definition valid_iteration (N M K : Z) (ij : Z * Z) : Prop :=
  is_valid_submatrix ij.1 ij.2 K N M = true.

#[global] Instance valid_iteration_dec N M K ij :
  Decision (valid_iteration N M K ij) :=
  decide (is_valid_submatrix ij.1 ij.2 K N M = true).

(** Every entry of the matrix is even (zero included). *)
Definition all_even (m : matrix) : Prop :=
  Forall (Forall (λ v, Z.even v = true)) m.

(** The fixed 4 by 4 matrix of the design's scenario. *)
Definition scenario : matrix :=
  [[1; 2; 3; 5]; [4; 6; 7; 8]; [9; 2; 3; 11]; [4; 6; 8; 1]].

(** A team of two threads: the first takes the first [n] iterations, the
    second the others, and the second enters the critical section first. *)
Definition two_threads (N M K : Z) (n : nat) : schedule :=
  [drop n (iteration_space N M K); take n (iteration_space N M K)].

(** What one iteration of the generator stores and the state it leaves, as
    a function of the generator's state alone. *)
Definition draw_entry {rng : Type} (rand : rng → Z * rng) (g : rng) : Z * rng :=
  let '(r, g1) := rand g in
  let v := Z.rem r (MAX_VALUE - MIN_VALUE + 1) + MIN_VALUE in
  if Z.rem v 2 =? 0 then
    let '(r', g2) := rand g1 in
    if Z.rem r' 3 =? 0 then (v + 1, g2) else (v, g2)
  else (v, g1).

(** The cells of an [N] by [M] block in the order the generator fills them. *)
Definition all_cells (N M : Z) : list (Z * Z) :=
  i ← seqZ 0 N; j ← seqZ 0 M; [(i, j)].

(** Two blocks hold the same value in every cell of [P]. *)
Definition agree (P : Z → Z → Prop) (m1 m2 : matrix) : Prop :=
  ∀ i j, P i j → cell m1 i j = cell m2 i j.

(** Every cell of [P] holds a value between [lo] and [hi]. *)
Definition within (lo hi : Z) (P : Z → Z → Prop) (m : matrix) : Prop :=
  ∀ i j, P i j → lo ≤ cell m i j ≤ hi.

(** What every implementation of [log] guarantees on the arguments the
    program passes, the positive integers: the result is [+0] (at 1) or
    positive, possibly [+INFINITY]; it is never a NaN and never negative. *)
Definition log_sane (log : double → double) : Prop :=
  ∀ z : Z, 1 ≤ z → nonneg (log (of_int z)) = true.

(** ** Instances for worked examples *)

(** A logarithm for worked examples: the correctly rounded binary64 value of
    [ln x] at the odd integers 3, 5, 7, 9 and 11, and [+0] elsewhere (which
    is exact at 1). *)
Definition log_sample (x : double) : double :=
  if SFeqb x (of_int 3) then S754_finite false 4947709893870347 (-52)
  else if SFeqb x (of_int 5) then S754_finite false 7248263982714163 (-52)
  else if SFeqb x (of_int 7) then S754_finite false 8763600222181975 (-52)
  else if SFeqb x (of_int 9) then S754_finite false 4947709893870347 (-51)
  else if SFeqb x (of_int 11) then S754_finite false 5399580128524108 (-51)
  else zero.

(** A scripted generator: the state is the list of the numbers [rand] is
    still to return ([0] once it is exhausted); [srand] loads the script of
    the seed. *)
Definition scripted_rand (g : list Z) : Z * list Z :=
  match g with
  | [] => (0, [])
  | r :: g' => (r, g')
  end.


(** A model of the generator of the GNU C library (its default, additive
    feedback kind), for worked examples on the numbers the programs really
    draw on Linux: the state is the window of the last 34 words; a step adds
    the words 31 and 3 places back modulo [2^32], and [rand] returns the sum
    shifted right by one bit.  [srand] fills the window from the seed, which
    is taken between 1 and [2^31 - 2] here, and discards the first 310
    numbers. *)
Definition glibc_rand (w : list Z) : Z * list Z :=
  let x := (nth 3 w 0 + nth 31 w 0) mod 2 ^ 32 in
  (x / 2, tail w ++ [x]).

Definition glibc_seed_words (seed : Z) : list Z :=
  let r := Nat.iter 30 (λ l, l ++ [(16807 * List.last l 0) mod 2147483647]) [seed] in
  r ++ take 3 r.

Definition glibc_srand (seed : Z) : list Z :=
  Nat.iter 310 (λ w, (glibc_rand w).2) (glibc_seed_words seed).

(** A block of [N] rows of [M] zeros, for the memory [allocate_matrix]
    returns when an example needs one. *)
Definition zero_block (N M : nat) : matrix := replicate N (replicate M 0).

(** ** Printing *)

(** What the two printing functions write, one token for each [printf]. *)
Inductive token : Type :=
| MatrixHeader (N M : Z)      (* "Matrix (%dx%d):\n" *)
| SubmatrixHeader (r c : Z)   (* "Submatrix at position (%d, %d):\n" *)
| Number (v : Z)              (* "%4d " *)
| Star                        (* "*" *)
| Blank                       (* " " *)
| RowDots                     (* " ..." *)
| MoreRows                    (* "...\n" *)
| Newline                     (* "\n" *)
| Legend.                     (* the closing line that explains the star *)

(** One row of [print_matrix]: the inner loop, the dots and the line end. *)
Definition print_matrix_row (m : matrix) (M max_print print_M : Z)
    (out : list token) (i : Z) : list token :=
  let out := foldl (λ out j, out ++ [Number (cell m i j)]) out (seqZ 0 print_M) in
  let out := if M >? max_print then out ++ [RowDots] else out in
  out ++ [Newline].

Definition print_matrix (m : matrix) (N M max_print : Z) : list token :=
  let print_N := if N >? max_print then max_print else N in
  let print_M := if M >? max_print then max_print else M in
  let out := [MatrixHeader N M] in
  let out := foldl (print_matrix_row m M max_print print_M) out (seqZ 0 print_N) in
  let out := if N >? max_print then out ++ [MoreRows] else out in
  out ++ [Newline].

(** The preview both [main] functions print after the generation: ten rows
    and columns at most when the matrix has no more, five otherwise. *)
Definition print_preview (m : matrix) (N M : Z) : list token :=
  if (N <=? 10) && (M <=? 10) then print_matrix m N M 10 else print_matrix m N M 5.

(** One cell of [print_submatrix]: the number and its mark. *)
Definition print_submatrix_cell (m : matrix) (i : Z) (out : list token) (j : Z)
  : list token :=
  let out := out ++ [Number (cell m i j)] in
  if is_odd (cell m i j) then out ++ [Star] else out ++ [Blank].

Definition print_submatrix (m : matrix) (start_row start_col K : Z) : list token :=
  let out := [SubmatrixHeader start_row start_col] in
  let out :=
    foldl (λ out i,
             foldl (print_submatrix_cell m i) out (seqZ start_col K) ++ [Newline])
          out (seqZ start_row K) in
  out ++ [Legend].

#[global] Instance token_eq_dec : EqDecision token.
Proof. solve_decision. Defined.

(** The numbers among the tokens written, in order. *)
Definition printed_numbers (out : list token) : list Z :=
  omap (λ t, match t with Number v => Some v | _ => None end) out.

(** How many cells were marked with a star. *)
Definition printed_stars (out : list token) : nat :=
  length (filter (λ t, t = Star) out).

(** The values a score can take: negative infinity, [+0], a positive number
    or positive infinity. *)
Definition score_value_range (x : double) : Prop :=
  x = neg_infinity ∨ nonneg x = true.

(** The matrix with every entry negated. *)
Definition negated (m : matrix) : matrix := (λ r : list Z, Z.opp <$> r) <$> m.

(** * Facts about binary64 comparison and addition *)

(** Case analysis on the comparisons of exponents and mantissas that
    [SFcompare] makes. *)
Ltac cmp_cases :=
  repeat match goal with
  | |- context [Z.compare ?e ?e'] => destruct (Z.compare_spec e e')
  | |- context [PosDef.Pos.compare_cont Eq ?m ?m'] =>
      change (PosDef.Pos.compare_cont Eq m m') with (Pos.compare m m');
      destruct (Pos.compare_spec m m')
  end;
  simpl; try done; try lia.

(** Case analysis on the class and the sign of every double in sight. *)
Ltac by_float_cases :=
  unfold gt, ge, is_nan, nonneg, SFltb, SFleb, SFeqb, SFcompare;
  repeat match goal with
  | x : double |- _ => destruct x as [[]|[]| |[] ? ?]
  | x : spec_float |- _ => destruct x as [[]|[]| |[] ? ?]
  end;
  try done; cmp_cases.

Lemma gt_irrefl a : gt a a = false.
Proof. by_float_cases. Qed.

Lemma gt_trans a b c : gt a b = true → gt b c = true → gt a c = true.
Proof. by_float_cases. Qed.

Lemma gt_not_nan a b : gt a b = true → is_nan a = false ∧ is_nan b = false.
Proof. by_float_cases. Qed.

Lemma gt_neg_trans a b c :
  is_nan b = false → gt a b = false → gt b c = false → gt a c = false.
Proof. by_float_cases. Qed.

Lemma not_gt_ge a b :
  is_nan a = false → is_nan b = false → gt a b = false → ge b a = true.
Proof. by_float_cases. Qed.

Lemma eqb_not_gt a b : SFeqb a b = true → gt a b = false ∧ gt b a = false.
Proof. by_float_cases. Qed.

Lemma nonneg_not_nan a : nonneg a = true → is_nan a = false.
Proof. by_float_cases. Qed.

Lemma nonneg_gt_neg_infinity a : nonneg a = true → gt a neg_infinity = true.
Proof. by_float_cases. Qed.

Lemma add_zero_l x : x ≠ S754_zero true → add zero x = x.
Proof. by destruct x as [[]|[]| |[] ? ?]. Qed.

Lemma shr_1_nonneg mrs : 0 ≤ shr_m mrs → 0 ≤ shr_m (shr_1 mrs).
Proof. destruct mrs as [[|[]|[]] r s]; simpl; lia. Qed.

Lemma iter_shr_1_nonneg p mrs :
  0 ≤ shr_m mrs → 0 ≤ shr_m (SpecFloat.iter_pos shr_1 p mrs).
Proof.
  revert mrs. induction p as [p IH|p IH|]; intros mrs Hm; simpl;
    auto using shr_1_nonneg.
Qed.

Lemma shr_fexp_nonneg pr em m e l :
  0 ≤ m → 0 ≤ shr_m (shr_fexp pr em m e l).1.
Proof.
  intros Hm. unfold shr_fexp, shr.
  assert (0 ≤ shr_m (shr_record_of_loc m l)) by (by destruct l as [|[]]).
  case_match; simpl; auto using iter_shr_1_nonneg.
Qed.

Lemma round_nearest_even_nonneg m l : 0 ≤ m → 0 ≤ round_nearest_even m l.
Proof. intros Hm. destruct l as [|[]]; simpl; try case_match; lia. Qed.

Lemma binary_round_aux_nonneg pr em m e l :
  0 ≤ m → nonneg (binary_round_aux pr em false m e l) = true.
Proof.
  intros Hm. unfold binary_round_aux.
  pose proof (shr_fexp_nonneg pr em m e l Hm) as H1.
  destruct (shr_fexp pr em m e l) as [mrs' e']; simpl in H1.
  pose proof (shr_fexp_nonneg pr em _ e' loc_Exact
                (round_nearest_even_nonneg _ (loc_of_shr_record mrs') H1)) as H2.
  destruct (shr_fexp pr em _ e' loc_Exact) as [mrs'' e'']; simpl in H2.
  destruct (shr_m mrs''); [done| |lia]. by case_match.
Qed.

Lemma add_nonneg x y : nonneg x = true → nonneg y = true → nonneg (add x y) = true.
Proof.
  destruct x as [[]|[]| |[] mx ex], y as [[]|[]| |[] my ey]; try done.
  intros _ _. unfold add, SFadd, binary_normalize, cond_Zopp.
  destruct (_ + _) as [|m|m] eqn:Hm; [done| |lia].
  unfold binary_round. case_match. by apply binary_round_aux_nonneg.
Qed.

(** * Facts about the scoring function *)

Lemma foldl_bind {A B C} (f : A → B → A) (g : C → list B) (a : A) (l : list C) :
  foldl f a (l ≫= g) = foldl (λ a x, foldl f a (g x)) a l.
Proof.
  revert a. induction l as [|x l IH]; intros a; [done|].
  rewrite bind_cons, foldl_app. apply IH.
Qed.

Lemma odd_abs v : Z.odd (Z.abs v) = Z.odd v.
Proof. by destruct v as [|[]|[]]. Qed.

Lemma is_odd_odd v : is_odd v = Z.odd v.
Proof.
  unfold is_odd. rewrite Z.rem_mod_nonneg, Zmod_odd, odd_abs by lia.
  by destruct (Z.odd v).
Qed.

Lemma is_odd_qualifying v : is_odd v && negb (v =? 0) = qualifying v.
Proof. unfold qualifying. by rewrite is_odd_odd, odd_abs. Qed.

Lemma cell_lookup (m : matrix) (i j : nat) (r : list Z) (v : Z) :
  m !! i = Some r → r !! j = Some v → cell m (Z.of_nat i) (Z.of_nat j) = v.
Proof.
  intros Hr Hv. unfold cell.
  rewrite (proj2 (Z.ltb_ge (Z.of_nat i) 0)), (proj2 (Z.ltb_ge (Z.of_nat j) 0)) by lia.
  simpl. rewrite !Nat2Z.id, Hr. simpl. by rewrite Hv.
Qed.

Lemma cell_elem_of (m : matrix) i j :
  cell m i j = 0 ∨ ∃ r, r ∈ m ∧ cell m i j ∈ r.
Proof.
  unfold cell. destruct (_ || _); [by left|].
  destruct (m !! Z.to_nat i) as [r|] eqn:Hr; simpl; [|by left].
  destruct (r !! Z.to_nat j) as [v|] eqn:Hv; simpl; [|by left].
  right. exists r. split; eapply list_elem_of_lookup_2; eauto.
Qed.

(** On a window that lies inside a block of [N] rows and [M] columns the
    scoring function reads allocated cells only: the value the model gives a
    read outside the block is never used. *)
Lemma window_reads_allocated m N M K i j i' j' :
  has_shape N M m →
  0 ≤ i → i + K ≤ N → 0 ≤ j → j + K ≤ M →
  i ≤ i' < i + K → j ≤ j' < j + K →
  ∃ r, m !! Z.to_nat i' = Some r ∧ r !! Z.to_nat j' = Some (cell m i' j').
Proof.
  intros [Hlen Hrows] Hi HiK Hj HjK Hi' Hj'.
  destruct (lookup_lt_is_Some_2 m (Z.to_nat i')) as [r Hr]; [lia|].
  rewrite Forall_forall in Hrows.
  pose proof (Hrows r (list_elem_of_lookup_2 _ _ _ Hr)) as Hlr.
  destruct (lookup_lt_is_Some_2 r (Z.to_nat j')) as [v Hv]; [lia|].
  exists r. split; [done|].
  pose proof (cell_lookup m _ _ r v Hr Hv) as Hc.
  rewrite !Z2Nat.id in Hc by lia. by rewrite Hc.
Qed.

Section ScoringFacts.

Variable log : double → double.

Local Abbreviation score_value := (score_value log).

Lemma score_loops_window_cells m r c K :
  score_loops log m r c K = foldl score_value (zero, 0) (window_cells m r c K).
Proof.
  unfold score_loops, window_cells. rewrite foldl_bind.
  generalize (zero, 0). induction (seqZ r K) as [|i rows IH]; intros acc; [done|].
  simpl. rewrite <-IH. f_equal. rewrite foldl_bind.
  clear. revert acc. induction (seqZ c K) as [|j cols IH]; intros [ls oc]; [done|].
  simpl. rewrite <-IH. f_equal.
  unfold score_value. rewrite is_odd_qualifying. by destruct (qualifying _).
Qed.

Lemma foldl_score_value vs ls oc :
  foldl score_value (ls, oc) vs =
  (foldl add ls ((λ v, log (of_int (Z.abs v))) <$> filter (λ v, qualifying v = true) vs),
   oc + Z.of_nat (length (filter (λ v, qualifying v = true) vs))).
Proof.
  revert ls oc. induction vs as [|v vs IH]; intros ls oc; simpl.
  { f_equal. lia. }
  unfold score_value at 2. rewrite filter_cons.
  destruct (qualifying v) eqn:Hq; simpl.
  - rewrite IH. f_equal. lia.
  - apply IH.
Qed.

Lemma calculate_log_score m r c K :
  calculate_log_product_submatrix log m r c K = log_score log m r c K.
Proof.
  unfold calculate_log_product_submatrix, log_score.
  rewrite score_loops_window_cells, foldl_score_value.
  by destruct (filter _ _).
Qed.

(** The sum of the logarithms of qualifying cells is never a NaN and never
    negative. *)
Lemma foldl_add_nonneg vs ls :
  log_sane log → nonneg ls = true →
  nonneg (foldl add ls ((λ v, log (of_int (Z.abs v))) <$>
                         filter (λ v, qualifying v = true) vs)) = true.
Proof.
  intros Hlog. revert ls. induction vs as [|v vs IH]; intros ls Hls; [done|].
  rewrite filter_cons. case_decide as Hq; [|by apply IH].
  simpl. apply IH, add_nonneg; [done|]. apply Hlog.
  unfold qualifying in Hq. lia.
Qed.

Lemma calculate_nonneg m r c K :
  log_sane log →
  calculate_log_product_submatrix log m r c K = neg_infinity ∨
  nonneg (calculate_log_product_submatrix log m r c K) = true.
Proof.
  intros Hlog. rewrite calculate_log_score. unfold log_score.
  destruct (filter _ _) eqn:Hf; [by left|right].
  rewrite <-Hf. by apply foldl_add_nonneg.
Qed.

Lemma calculate_not_nan m r c K :
  log_sane log → is_nan (calculate_log_product_submatrix log m r c K) = false.
Proof.
  intros Hlog. destruct (calculate_nonneg m r c K Hlog) as [->|H]; [done|].
  by apply nonneg_not_nan.
Qed.

End ScoringFacts.

Lemma log_sample_nonneg x : nonneg (log_sample x) = true.
Proof. unfold log_sample. by repeat case_match. Qed.

Lemma log_sample_sane : log_sane log_sample.
Proof. intros z _. apply log_sample_nonneg. Qed.

(** * Facts about the reduction *)

Lemma elem_of_concat {A} (x : A) (ls : list (list A)) :
  x ∈ concat ls ↔ ∃ l, l ∈ ls ∧ x ∈ l.
Proof.
  induction ls as [|l ls IH]; simpl.
  - split; [by intros ?%elem_of_nil|by intros (? & ?%elem_of_nil & _)].
  - rewrite elem_of_app, IH. split.
    + intros [?|(l' & ? & ?)]; [exists l|exists l']; rewrite elem_of_cons; auto.
    + intros (l' & [->|?]%elem_of_cons & ?); eauto.
Qed.

(** A running best updated with [critical], from a start that is not a NaN:
    the outcome is the start or one of the candidates, it is not a NaN, and
    neither the start nor any candidate beats it. *)
Lemma foldl_critical_spec (ls : list SubmatrixResult) (b : SubmatrixResult) :
  is_nan (max_log_product b) = false →
  let r := foldl critical b ls in
  is_nan (max_log_product r) = false ∧
  gt (max_log_product b) (max_log_product r) = false ∧
  (∀ l, l ∈ ls → gt (max_log_product l) (max_log_product r) = false) ∧
  (r = b ∨ r ∈ ls).
Proof.
  revert b. induction ls as [|l ls IH]; intros b Hb; simpl.
  { split_and!; [done|apply gt_irrefl|by intros l ?%elem_of_nil|by left]. }
  assert (critical b l = if gt (max_log_product l) (max_log_product b)
                         then l else b) as -> by done.
  destruct (gt (max_log_product l) (max_log_product b)) eqn:Hlb.
  - destruct (gt_not_nan _ _ Hlb) as [Hl _].
    destruct (IH l Hl) as (Hr & Hlr & Hall & Hin). split_and!; [done|..].
    + apply gt_neg_trans with (max_log_product l); [done| |done].
      destruct (gt (max_log_product b) (max_log_product l)) eqn:Hbl; [|done].
      by rewrite <-(gt_irrefl (max_log_product b)), (gt_trans _ _ _ Hbl Hlb).
    + intros l' [->|Hl']%elem_of_cons; auto.
    + right. rewrite elem_of_cons. destruct Hin as [->|Hin]; [by left|by right].
  - destruct (IH b Hb) as (Hr & Hbr & Hall & Hin). split_and!; [done..| |].
    + intros l' [->|Hl']%elem_of_cons; [|by auto].
      by apply gt_neg_trans with (max_log_product b).
    + rewrite elem_of_cons. destruct Hin as [->|Hin]; [by left|by right; right].
Qed.

(** When no candidate has a score above negative infinity, the sentinel
    stays. *)
Lemma foldl_critical_sentinel (ls : list SubmatrixResult) :
  (∀ l, l ∈ ls → max_log_product l = neg_infinity) →
  foldl critical sentinel ls = sentinel.
Proof.
  induction ls as [|l ls IH]; intros Hls; [done|]. simpl.
  assert (critical sentinel l = sentinel) as ->.
  { unfold critical. by rewrite (Hls l) by (apply elem_of_cons; by left). }
  apply IH. intros l' Hl'. apply Hls, elem_of_cons. by right.
Qed.

Section SearchFacts.

Variable log : double → double.
Variable m : matrix.
Variables N M K : Z.

Local Abbreviation candidate := (candidate log m K).
Local Abbreviation valid_iteration := (valid_iteration N M K).

(** A thread's scan is the same reduction as the critical section, over
    the candidates of its valid iterations. *)
Lemma scan_thread_critical its b :
  foldl (scan_window log m N M K) b its =
  foldl critical b (candidate <$> filter valid_iteration its).
Proof.
  revert b. induction its as [|[i j] its IH]; intros b; [done|].
  rewrite filter_cons. simpl.
  case_decide as Hv; unfold valid_iteration in Hv; simpl in Hv.
  - by rewrite Hv, IH.
  - apply not_true_is_false in Hv. by rewrite Hv, IH.
Qed.

Lemma iteration_space_spec i j :
  (i, j) ∈ iteration_space N M K ↔ (0 ≤ i ≤ N - K ∧ 0 ≤ j ≤ M - K).
Proof.
  unfold iteration_space. rewrite list_elem_of_bind. split.
  - intros (i' & (j' & Hij & Hj)%list_elem_of_bind & Hi).
    apply list_elem_of_singleton in Hij. simplify_eq.
    apply elem_of_seqZ in Hi, Hj. lia.
  - intros [Hi Hj]. exists i. rewrite list_elem_of_bind, elem_of_seqZ.
    split; [|lia]. exists j. rewrite elem_of_seqZ, list_elem_of_singleton.
    split; [done|lia].
Qed.

Lemma iteration_space_valid ij :
  ij ∈ iteration_space N M K → valid_iteration ij.
Proof.
  destruct ij as [i j]. rewrite iteration_space_spec.
  unfold valid_iteration, is_valid_submatrix. simpl. lia.
Qed.

Lemma iteration_space_empty : N < K ∨ M < K → iteration_space N M K = [].
Proof.
  intros HK. destruct (iteration_space N M K) as [|[i j] l] eqn:Hl; [done|].
  assert ((i, j) ∈ iteration_space N M K) as Hin
    by (rewrite Hl; apply elem_of_cons; by left).
  apply iteration_space_spec in Hin. lia.
Qed.

(** What one thread returns. *)
Lemma scan_thread_spec its :
  let r := scan_thread log m N M K its in
  is_nan (max_log_product r) = false ∧
  (∀ ij, ij ∈ its → valid_iteration ij →
         gt (max_log_product (candidate ij)) (max_log_product r) = false) ∧
  (r = sentinel ∨ ∃ ij, ij ∈ its ∧ valid_iteration ij ∧ r = candidate ij).
Proof.
  unfold scan_thread. rewrite scan_thread_critical.
  destruct (foldl_critical_spec (candidate <$> filter valid_iteration its) sentinel)
    as (Hnan & _ & Hall & Hin); [done|].
  split_and!; [done| |].
  - intros ij Hij Hv. apply Hall, list_elem_of_fmap. exists ij.
    split; [done|]. by apply list_elem_of_filter.
  - destruct Hin as [?|Hin]; [by left|right].
    apply list_elem_of_fmap in Hin as (ij & -> & [??]%list_elem_of_filter). eauto.
Qed.

(** What the parallel region returns, whatever the schedule. *)
Lemma find_best_spec sched :
  let r := find_best_submatrix_parallel log m N M K sched in
  is_nan (max_log_product r) = false ∧
  (∀ ij, ij ∈ concat sched → valid_iteration ij →
         gt (max_log_product (candidate ij)) (max_log_product r) = false) ∧
  (r = sentinel ∨ ∃ ij, ij ∈ concat sched ∧ valid_iteration ij ∧ r = candidate ij).
Proof.
  unfold find_best_submatrix_parallel.
  destruct (foldl_critical_spec (scan_thread log m N M K <$> sched) sentinel)
    as (Hnan & _ & Hall & Hin); [done|].
  split_and!; [done| |].
  - intros ij (its & Hits & Hij)%elem_of_concat Hv.
    destruct (scan_thread_spec its) as (Hnan' & Hall' & _).
    eapply gt_neg_trans; [exact Hnan'|by apply Hall'|].
    apply Hall, list_elem_of_fmap. eauto.
  - destruct Hin as [?|Hin]; [by left|].
    apply list_elem_of_fmap in Hin as (its & -> & Hits).
    destruct (scan_thread_spec its) as (_ & _ & [?|(ij & Hij & Hv & ?)]);
      [by left|right].
    exists ij. split_and!; [|done..]. apply elem_of_concat. eauto.
Qed.

End SearchFacts.

(** * The local search engine *)

Section LocalSearch.

Variable log : double → double.
Variable m : matrix.
Variables N M K : Z.

Lemma omp_schedule_elem_of sched ij :
  omp_schedule N M K sched → ij ∈ concat sched ↔ ij ∈ iteration_space N M K.
Proof. intros Hs. by rewrite Hs. Qed.

(** No window of the iteration space scores strictly above the result;
    this holds for every [log], even one that returns NaNs. *)
Lemma find_best_not_beaten sched i j :
  omp_schedule N M K sched → 0 ≤ i ≤ N - K → 0 ≤ j ≤ M - K →
  gt (calculate_log_product_submatrix log m i j K)
     (max_log_product (find_best_submatrix_parallel log m N M K sched)) = false.
Proof.
  intros Hs Hi Hj.
  destruct (find_best_spec log m N M K sched) as (_ & Hall & _).
  assert ((i, j) ∈ iteration_space N M K) as Hin by by apply iteration_space_spec.
  apply (Hall (i, j)).
  - by apply omp_schedule_elem_of.
  - by apply iteration_space_valid.
Qed.

Lemma find_best_sentinel_or_window sched :
  omp_schedule N M K sched →
  let r := find_best_submatrix_parallel log m N M K sched in
  r = sentinel ∨
  (0 ≤ row r ≤ N - K ∧ 0 ≤ col r ≤ M - K ∧
   max_log_product r = calculate_log_product_submatrix log m (row r) (col r) K).
Proof.
  intros Hs.
  destruct (find_best_spec log m N M K sched) as (_ & _ & [?|([i j] & Hin & _ & Hr)]);
    [by left|right].
  apply (omp_schedule_elem_of _ _ Hs), iteration_space_spec in Hin.
  simpl. rewrite Hr. simpl. split_and!; [lia..|done].
Qed.

Lemma find_best_no_iteration sched :
  concat sched = [] → find_best_submatrix_parallel log m N M K sched = sentinel.
Proof.
  intros Hnil. apply foldl_critical_sentinel. intros l Hl.
  apply list_elem_of_fmap in Hl as (its & -> & Hits).
  apply concat_nil_Forall in Hnil. rewrite Forall_forall in Hnil.
  by rewrite (Hnil its).
Qed.

Lemma find_best_empty_domain sched :
  N < K ∨ M < K → omp_schedule N M K sched →
  find_best_submatrix_parallel log m N M K sched = sentinel.
Proof.
  intros HK Hs. apply find_best_no_iteration.
  unfold omp_schedule in Hs. rewrite (iteration_space_empty N M K HK) in Hs.
  by apply Permutation_nil_r.
Qed.

End LocalSearch.

Lemma all_even_cell m i j : all_even m → Z.even (cell m i j) = true.
Proof.
  intros Hm. destruct (cell_elem_of m i j) as [->|(r & Hr & Hv)]; [done|].
  unfold all_even in Hm. rewrite Forall_forall in Hm.
  specialize (Hm r Hr). rewrite Forall_forall in Hm. by apply Hm.
Qed.

Lemma filter_nil_Forall {A} (P : A → Prop) `{!∀ x, Decision (P x)} (l : list A) :
  Forall (λ x, ¬ P x) l → filter P l = [].
Proof.
  induction 1 as [|x l Hx _ IH]; [done|].
  by rewrite filter_cons, decide_False.
Qed.

Lemma all_even_window m r c K :
  all_even m → filter (λ v, qualifying v = true) (window_cells m r c K) = [].
Proof.
  intros Hm. apply filter_nil_Forall, Forall_forall. intros v Hv.
  unfold window_cells in Hv. apply list_elem_of_bind in Hv as (i & Hv & _).
  apply list_elem_of_bind in Hv as (j & ->%list_elem_of_singleton & _).
  unfold qualifying. by rewrite odd_abs, <-Z.negb_even, all_even_cell.
Qed.

Lemma all_even_score log m r c K :
  all_even m → calculate_log_product_submatrix log m r c K = neg_infinity.
Proof.
  intros Hm. rewrite calculate_log_score. unfold log_score.
  by rewrite all_even_window.
Qed.

Lemma all_even_find_best log m N M K sched :
  all_even m → find_best_submatrix_parallel log m N M K sched = sentinel.
Proof.
  intros Hm. apply foldl_critical_sentinel. intros l Hl.
  apply list_elem_of_fmap in Hl as (its & -> & _).
  destruct (scan_thread_spec log m N M K its) as (_ & _ & [->|(ij & _ & _ & ->)]);
    [done|]. by apply all_even_score.
Qed.

Lemma omp_schedule_sequential N M K : omp_schedule N M K (sequential N M K).
Proof. unfold omp_schedule, sequential. simpl. by rewrite app_nil_r. Qed.

Lemma omp_schedule_two_threads N M K n : omp_schedule N M K (two_threads N M K n).
Proof.
  unfold omp_schedule, two_threads. simpl.
  by rewrite app_nil_r, Permutation_app_comm, take_drop.
Qed.

(** The design's scenario: on the fixed 4 by 4 matrix with [K = 2] the best
    window is the one at row 1, column 2, which holds 7, 3 and 11; one thread
    or two, the engine returns it with the score [ln 7 + ln 3 + ln 11]. *)
Lemma scenario_best_window :
  find_best_submatrix_parallel log_sample scenario 4 4 2 (sequential 4 4 2)
  = mkResult 1 2 (S754_finite false 6127617593275134 (-50)) ∧
  find_best_submatrix_parallel log_sample scenario 4 4 2 (two_threads 4 4 2 4)
  = mkResult 1 2 (S754_finite false 6127617593275134 (-50)).
Proof. by vm_compute. Qed.

(** C2. Optimality of the local search: whatever the schedule of the
    parallel region, the score [find_best_submatrix_parallel] returns is
    greater than or equal to the score [calculate_log_product_submatrix]
    gives any window whose top-left corner has its row in [0, N-K] and its
    column in [0, M-K]. *)
Theorem find_best_submatrix_parallel_optimal log m N M K sched i j :
  log_sane log → omp_schedule N M K sched →
  0 ≤ i ≤ N - K → 0 ≤ j ≤ M - K →
  ge (max_log_product (find_best_submatrix_parallel log m N M K sched))
     (calculate_log_product_submatrix log m i j K) = true.
Proof.
  intros Hlog Hs Hi Hj. apply not_gt_ge.
  - by apply calculate_not_nan.
  - by destruct (find_best_spec log m N M K sched) as (? & _).
  - by apply find_best_not_beaten.
Qed.

Lemma find_best_submatrix_parallel_optimal_witness :
  ge (max_log_product
        (find_best_submatrix_parallel log_sample scenario 4 4 2 (two_threads 4 4 2 4)))
     (calculate_log_product_submatrix log_sample scenario 0 2 2) = true.
Proof.
  apply (find_best_submatrix_parallel_optimal log_sample scenario 4 4 2 _ 0 2).
  - apply log_sample_sane.
  - apply omp_schedule_two_threads.
  - lia.
  - lia.
Defined.

(** C10. Witness validity: a result of [find_best_submatrix_parallel] other
    than the sentinel has its row in [0, N-K], its column in [0, M-K], and
    its score is the one [calculate_log_product_submatrix] gives the window
    at that row and column. *)
Theorem find_best_submatrix_parallel_achieved log m N M K sched :
  omp_schedule N M K sched →
  find_best_submatrix_parallel log m N M K sched ≠ sentinel →
  let r := find_best_submatrix_parallel log m N M K sched in
  0 ≤ row r ≤ N - K ∧ 0 ≤ col r ≤ M - K ∧
  max_log_product r = calculate_log_product_submatrix log m (row r) (col r) K.
Proof.
  intros Hs Hne. by destruct (find_best_sentinel_or_window log m N M K sched Hs).
Qed.

Lemma find_best_submatrix_parallel_achieved_witness :
  let r := find_best_submatrix_parallel log_sample scenario 4 4 2 (two_threads 4 4 2 4) in
  0 ≤ row r ≤ 4 - 2 ∧ 0 ≤ col r ≤ 4 - 2 ∧
  max_log_product r =
    calculate_log_product_submatrix log_sample scenario (row r) (col r) 2.
Proof.
  apply (find_best_submatrix_parallel_achieved log_sample scenario 4 4 2).
  - apply omp_schedule_two_threads.
  - vm_compute. discriminate.
Defined.

(** C8. Empty search domain: when the block has fewer than [K] rows or fewer
    than [K] columns, the iteration space is empty and
    [find_best_submatrix_parallel] returns the sentinel. *)
Theorem find_best_submatrix_parallel_empty log m N M K sched :
  N < K ∨ M < K → omp_schedule N M K sched →
  iteration_space N M K = [] ∧
  find_best_submatrix_parallel log m N M K sched = sentinel.
Proof.
  intros HK Hs. split.
  - by apply iteration_space_empty.
  - by apply find_best_empty_domain.
Qed.

Lemma find_best_submatrix_parallel_empty_witness :
  iteration_space 1 4 2 = [] ∧
  find_best_submatrix_parallel log_sample scenario 1 4 2 (two_threads 1 4 2 0)
  = sentinel.
Proof.
  apply (find_best_submatrix_parallel_empty log_sample scenario 1 4 2).
  - left. lia.
  - apply omp_schedule_two_threads.
Defined.

(** C3. The scoring function: [calculate_log_product_submatrix] returns the
    sum of [ln |v|] over exactly the cells of the window whose value is odd
    and not zero, negative infinity when the window has no such cell, and
    [ln 3] on a window that holds 0 and -3. *)
Theorem calculate_log_product_submatrix_correct log m start_row start_col K :
  calculate_log_product_submatrix log m start_row start_col K
  = log_score log m start_row start_col K ∧
  (Forall (λ v, qualifying v = false) (window_cells m start_row start_col K) →
   calculate_log_product_submatrix log m start_row start_col K = neg_infinity) ∧
  (log_sane log →
   calculate_log_product_submatrix log [[0; -3]; [0; 0]] 0 0 2 = log (of_int 3)).
Proof.
  split_and!.
  - apply calculate_log_score.
  - intros Hnone. rewrite calculate_log_score. unfold log_score.
    rewrite filter_nil_Forall; [done|].
    eapply Forall_impl; [exact Hnone|]. simpl. by intros v ->.
  - intros Hlog. change (add zero (log (of_int 3)) = log (of_int 3)).
    apply add_zero_l. intros Heq.
    pose proof (Hlog 3 ltac:(lia)) as H3. by rewrite Heq in H3.
Qed.

Lemma calculate_log_product_submatrix_correct_witness :
  calculate_log_product_submatrix log_sample [[0; -3]; [0; 0]] 1 0 1 = neg_infinity ∧
  calculate_log_product_submatrix log_sample [[0; -3]; [0; 0]] 0 0 2
  = log_sample (of_int 3).
Proof.
  split.
  - apply (proj1 (proj2 (calculate_log_product_submatrix_correct
                          log_sample [[0; -3]; [0; 0]] 1 0 1))).
    vm_compute. repeat constructor.
  - apply (proj2 (proj2 (calculate_log_product_submatrix_correct
                          log_sample scenario 0 0 2))).
    apply log_sample_sane.
Defined.

(** * The partition coordinator *)

Lemma ge_gt_neg_infinity a b :
  ge a b = true → gt b neg_infinity = true → gt a neg_infinity = true.
Proof. by_float_cases. Qed.

Lemma all_even_received_block m N M : all_even m → all_even (received_block m N M).
Proof.
  intros Hm. unfold all_even, received_block.
  apply Forall_fmap, Forall_forall. intros i _. simpl.
  apply Forall_fmap, Forall_forall. intros j _. simpl. by apply all_even_cell.
Qed.

Section Coordinator.

Variable log : double → double.
Variable m : matrix.
Variables N M K : Z.

(** A window with a qualifying cell scores above negative infinity. *)
Lemma qualifying_window_score i j :
  log_sane log →
  filter (λ v, qualifying v = true) (window_cells m i j K) ≠ [] →
  gt (calculate_log_product_submatrix log m i j K) neg_infinity = true.
Proof.
  intros Hlog Hq. apply nonneg_gt_neg_infinity.
  rewrite calculate_log_score. unfold log_score.
  destruct (filter _ _) eqn:Hf; [done|]. rewrite <-Hf.
  by apply foldl_add_nonneg.
Qed.

(** When neither block has [K] rows, the two workers enumerate nothing. *)
Lemma coordinated_search_blind sched0 sched1 :
  half_of N < K → N - half_of N < K →
  omp_schedule (half_of N) M K sched0 →
  omp_schedule (N - half_of N) M K sched1 →
  coordinated_search log m N M K sched0 sched1
  = mkResult (half_of N - 1) (-1) neg_infinity.
Proof.
  intros HA HB Hs0 Hs1. unfold coordinated_search, rank0_search, rank1_search.
  rewrite !find_best_empty_domain by auto.
  unfold select_better, adjust_row. simpl. f_equal. lia.
Qed.

Lemma coordinated_search_all_even sched0 sched1 :
  all_even m →
  coordinated_search log m N M K sched0 sched1
  = mkResult (half_of N - 1) (-1) neg_infinity.
Proof.
  intros Hm. unfold coordinated_search, rank0_search, rank1_search.
  rewrite !all_even_find_best by auto using all_even_received_block.
  unfold select_better, adjust_row. simpl. f_equal. lia.
Qed.

End Coordinator.

Lemma bind_ext_elem_of {A B} (f g : A → list B) (l : list A) :
  (∀ x, x ∈ l → f x = g x) → l ≫= f = l ≫= g.
Proof.
  induction l as [|x l IH]; intros Hfg; [done|].
  rewrite !bind_cons, (Hfg x), IH; [done| |apply elem_of_cons; by left].
  intros y Hy. apply Hfg, elem_of_cons. by right.
Qed.

Lemma received_block_cell m N M i j :
  0 ≤ i < N - half_of N → 0 ≤ j < M →
  cell (received_block m N M) i j = cell m (half_of N + i) j.
Proof.
  intros Hi Hj. unfold received_block.
  rewrite <-(Z2Nat.id i) at 1 by lia. rewrite <-(Z2Nat.id j) at 1 by lia.
  apply (cell_lookup _ _ _ ((λ j, cell m (half_of N + i) j) <$> seqZ 0 M)).
  - rewrite list_lookup_fmap, lookup_seqZ_lt by lia. simpl.
    by rewrite Z2Nat.id by lia.
  - rewrite list_lookup_fmap, lookup_seqZ_lt by lia. simpl.
    by rewrite Z2Nat.id by lia.
Qed.

Lemma window_cells_received_block m N M K i j :
  0 ≤ i → i + K ≤ N - half_of N → 0 ≤ j → j + K ≤ M →
  window_cells (received_block m N M) i j K = window_cells m (half_of N + i) j K.
Proof.
  intros Hi HiK Hj HjK. unfold window_cells.
  rewrite <-(fmap_add_seqZ (half_of N) i K), list_fmap_bind.
  apply bind_ext_elem_of. intros i' Hi'%elem_of_seqZ. simpl.
  apply bind_ext_elem_of. intros j' Hj'%elem_of_seqZ.
  rewrite received_block_cell by lia. done.
Qed.

Lemma calculate_received_block log m N M K i j :
  0 ≤ i → i + K ≤ N - half_of N → 0 ≤ j → j + K ≤ M →
  calculate_log_product_submatrix log (received_block m N M) i j K
  = calculate_log_product_submatrix log m (half_of N + i) j K.
Proof.
  intros. rewrite !calculate_log_score. unfold log_score.
  by rewrite window_cells_received_block.
Qed.

(** The result of the two workers, when it has a score above negative
    infinity, names a window of the whole matrix and carries that window's
    score: the row offset translates the coordinates of process 1
    correctly. *)
Lemma coordinated_search_sound log m N M K sched0 sched1 :
  0 ≤ half_of N ≤ N →
  omp_schedule (half_of N) M K sched0 →
  omp_schedule (N - half_of N) M K sched1 →
  let r := coordinated_search log m N M K sched0 sched1 in
  max_log_product r = neg_infinity ∨
  (0 ≤ row r ≤ N - K ∧ 0 ≤ col r ≤ M - K ∧
   max_log_product r = calculate_log_product_submatrix log m (row r) (col r) K).
Proof.
  intros Hhalf Hs0 Hs1. unfold coordinated_search, select_better.
  case_match.
  - unfold rank0_search.
    destruct (find_best_sentinel_or_window log m (half_of N) M K sched0 Hs0)
      as [->|(Hi & Hj & Hr)]; [by left|right].
    split_and!; [lia..|done].
  - unfold rank1_search.
    destruct (find_best_sentinel_or_window log (received_block m N M)
                (N - half_of N) M K sched1 Hs1) as [->|(Hi & Hj & Hr)]; [by left|right].
    simpl. split_and!; [lia..|].
    rewrite Hr, calculate_received_block by lia. f_equal. lia.
Qed.

(** Hence the two workers never report more than the search over the unsplit
    matrix. *)
Lemma coordinated_search_below_unsplit log m N M K sched0 sched1 sched :
  log_sane log → 0 ≤ half_of N ≤ N →
  omp_schedule (half_of N) M K sched0 →
  omp_schedule (N - half_of N) M K sched1 →
  omp_schedule N M K sched →
  ge (max_log_product (find_best_submatrix_parallel log m N M K sched))
     (max_log_product (coordinated_search log m N M K sched0 sched1)) = true.
Proof.
  intros Hlog Hhalf Hs0 Hs1 Hs.
  destruct (find_best_spec log m N M K sched) as (Hnan & _).
  destruct (coordinated_search_sound log m N M K sched0 sched1 Hhalf Hs0 Hs1)
    as [->|(Hi & Hj & ->)].
  - revert Hnan. generalize (max_log_product (find_best_submatrix_parallel log m N M K sched)).
    intros x. by_float_cases.
  - apply not_gt_ge; [by apply calculate_not_nan|done|by apply find_best_not_beaten].
Qed.

(** C1. Partition equivalence fails on the code: when [K] exceeds the height
    of both row blocks, the two workers enumerate no window and the merged
    score is negative infinity, while the search over the unsplit matrix
    scores above negative infinity as soon as one window of it has a
    qualifying cell. *)
Theorem coordinated_search_loses_straddling_windows
    log m N M K sched0 sched1 sched i j :
  log_sane log →
  half_of N < K → N - half_of N < K →
  omp_schedule (half_of N) M K sched0 →
  omp_schedule (N - half_of N) M K sched1 →
  omp_schedule N M K sched →
  0 ≤ i ≤ N - K → 0 ≤ j ≤ M - K →
  filter (λ v, qualifying v = true) (window_cells m i j K) ≠ [] →
  max_log_product (coordinated_search log m N M K sched0 sched1) = neg_infinity ∧
  gt (max_log_product (find_best_submatrix_parallel log m N M K sched))
     neg_infinity = true.
Proof.
  intros Hlog HA HB Hs0 Hs1 Hs Hi Hj Hq. split.
  - by rewrite coordinated_search_blind.
  - apply ge_gt_neg_infinity with (calculate_log_product_submatrix log m i j K).
    + apply not_gt_ge.
      * by apply calculate_not_nan.
      * by destruct (find_best_spec log m N M K sched) as (? & _).
      * by apply find_best_not_beaten.
    + by apply qualifying_window_score.
Qed.

Lemma coordinated_search_loses_straddling_windows_witness :
  let m := [[3; 3]; [3; 3]] in
  max_log_product
    (coordinated_search log_sample m 2 2 2 (sequential 1 2 2) (sequential 1 2 2))
  = neg_infinity ∧
  gt (max_log_product
        (find_best_submatrix_parallel log_sample m 2 2 2 (sequential 2 2 2)))
     neg_infinity = true.
Proof.
  apply (coordinated_search_loses_straddling_windows
           log_sample [[3; 3]; [3; 3]] 2 2 2 _ _ _ 0 0).
  - apply log_sample_sane.
  - vm_compute. reflexivity.
  - vm_compute. reflexivity.
  - apply (omp_schedule_sequential 1 2 2).
  - apply (omp_schedule_sequential 1 2 2).
  - apply omp_schedule_sequential.
  - lia.
  - lia.
  - vm_compute. discriminate.
Defined.

(** Both blocks are high enough for a window, yet the best window, rows 1
    and 2, lies across the cut: the two workers report [2 ln 3], the search
    over the unsplit matrix [4 ln 3]. *)
Lemma straddling_window_example :
  let m := [[2; 2]; [3; 3]; [3; 3]; [2; 2]] in
  coordinated_search log_sample m 4 2 2 (sequential 2 2 2) (sequential 2 2 2)
  = mkResult 2 0 (S754_finite false 4947709893870347 (-51)) ∧
  find_best_submatrix_parallel log_sample m 4 2 2 (sequential 4 2 2)
  = mkResult 1 0 (S754_finite false 4947709893870347 (-50)).
Proof. by vm_compute. Qed.

(** C4. Sentinel correctness, as far as it holds: on a matrix whose entries
    are all even, the local search returns the sentinel for every schedule;
    the result of the two workers has the sentinel's column and score, but
    its row is [N/2 - 1], the sentinel row of process 1 after the offset was
    added to it. *)
Theorem all_even_results log m N M K sched sched0 sched1 :
  all_even m →
  find_best_submatrix_parallel log m N M K sched = sentinel ∧
  coordinated_search log m N M K sched0 sched1
  = mkResult (half_of N - 1) (-1) neg_infinity.
Proof.
  intros Hm. split.
  - by apply all_even_find_best.
  - by apply coordinated_search_all_even.
Qed.

Lemma all_even_results_witness :
  find_best_submatrix_parallel log_sample [[2]; [4]] 2 1 1 (sequential 2 1 1)
  = sentinel ∧
  coordinated_search log_sample [[2]; [4]] 2 1 1 (sequential 1 1 1) (sequential 1 1 1)
  = mkResult 0 (-1) neg_infinity.
Proof.
  apply (all_even_results log_sample [[2]; [4]] 2 1 1).
  repeat constructor.
Defined.

(** On that input the two workers do not return the sentinel. *)
Lemma all_even_not_sentinel :
  coordinated_search log_sample [[2]; [4]] 2 1 1 (sequential 1 1 1) (sequential 1 1 1)
  ≠ sentinel.
Proof. by vm_compute. Qed.

(** C5, as the code has it. In the final merge the result of process 0 is
    selected exactly when its score is strictly greater; otherwise, and in
    particular when the two scores are equal, the result received from
    process 1 is selected.  Coordinates play no part. *)
Theorem select_better_rule (local_result other_result : SubmatrixResult) :
  (gt (max_log_product local_result) (max_log_product other_result) = true →
   select_better local_result other_result = local_result) ∧
  (gt (max_log_product local_result) (max_log_product other_result) = false →
   select_better local_result other_result = other_result) ∧
  (SFeqb (max_log_product local_result) (max_log_product other_result) = true →
   select_better local_result other_result = other_result).
Proof.
  unfold select_better. split_and!.
  - by intros ->.
  - by intros ->.
  - intros Heq. by destruct (eqb_not_gt _ _ Heq) as [-> _].
Qed.

Lemma select_better_rule_witness :
  let ln3 := S754_finite false 4947709893870347 (-52) in
  let ln5 := S754_finite false 7248263982714163 (-52) in
  select_better (mkResult 0 0 ln5) (mkResult 2 0 ln3) = mkResult 0 0 ln5 ∧
  select_better (mkResult 0 0 ln3) (mkResult 2 0 ln5) = mkResult 2 0 ln5 ∧
  select_better (mkResult 0 0 ln3) (mkResult 2 0 ln3) = mkResult 2 0 ln3.
Proof.
  split_and!.
  - apply (proj1 (select_better_rule (mkResult 0 0 _) (mkResult 2 0 _))).
    reflexivity.
  - apply (proj1 (proj2 (select_better_rule (mkResult 0 0 _) (mkResult 2 0 _)))).
    reflexivity.
  - apply (proj2 (proj2 (select_better_rule (mkResult 0 0 _) (mkResult 2 0 _)))).
    reflexivity.
Defined.

(** First-seen precedence does not hold in the final merge: on the column
    [3; 2; 3; 2] with [K = 1] the two workers find the same score, process 0
    at row 0 and process 1 at row 2, and the merge keeps the result of
    process 1. *)
Lemma select_better_tie_keeps_second :
  let m := [[3]; [2]; [3]; [2]] in
  let local_result := rank0_search log_sample m 4 1 1 (sequential 2 1 1) in
  let other_result := rank1_search log_sample m 4 1 1 (sequential 2 1 1) in
  max_log_product local_result = max_log_product other_result ∧
  select_better local_result other_result ≠ local_result ∧
  coordinated_search log_sample m 4 1 1 (sequential 2 1 1) (sequential 2 1 1)
  = other_result.
Proof. by vm_compute. Qed.

(** * Parameter validation and the two [main] functions *)

Lemma validate_parameters_0 N M K :
  validate_parameters N M K = 0 ↔
  N ≤ 0 ∨ M ≤ 0 ∨ K ≤ 0 ∨ K > N ∨ K > M ∨
  N > MAX_MATRIX_SIZE ∨ M > MAX_MATRIX_SIZE.
Proof.
  unfold validate_parameters, MAX_MATRIX_SIZE.
  repeat match goal with
  | |- context [?a <=? ?b] => destruct (Z.leb_spec a b)
  | |- context [?a >? ?b] => destruct (Z.gtb_spec a b)
  end; simpl; split; intros; first [done|lia].
Qed.

Lemma validate_parameters_0_or_1 N M K :
  validate_parameters N M K = 0 ∨ validate_parameters N M K = 1.
Proof. unfold validate_parameters. repeat case_match; auto. Qed.

Lemma report_not_error generated result :
  report generated result ≠ WrongProcessCount ∧
  report generated result ≠ InvalidParameters.
Proof. unfold report. by case_match. Qed.

(** C9. Configuration errors: [validate_parameters] returns 0 exactly when
    one of [N], [M], [K] is not positive, [K] exceeds [N] or [M], or [N] or
    [M] exceeds 1000, and 1 otherwise; [main] stops on a process count other
    than 2 before it reads anything, and on rejected parameters before a
    matrix is generated or searched, in both programs. *)
Theorem configuration_errors_rejected
    (log : double → double) (rng : Type) (srand : Z → rng) (rand : rng → Z * rng)
    (size now N M K : Z) (s : matrix * rng) (sched sched0 sched1 : schedule) :
  (validate_parameters N M K = 0 ↔
   N ≤ 0 ∨ M ≤ 0 ∨ K ≤ 0 ∨ K > N ∨ K > M ∨ N > 1000 ∨ M > 1000) ∧
  (validate_parameters N M K = 1 ↔
   ¬ (N ≤ 0 ∨ M ≤ 0 ∨ K ≤ 0 ∨ K > N ∨ K > M ∨ N > 1000 ∨ M > 1000)) ∧
  (main log srand rand size N M K s sched0 sched1 = WrongProcessCount ↔
   size ≠ 2) ∧
  (main log srand rand size N M K s sched0 sched1 = InvalidParameters ↔
   size = 2 ∧ validate_parameters N M K = 0) ∧
  (main_1 log srand rand now N M K s sched = InvalidParameters ↔
   validate_parameters N M K = 0).
Proof.
  pose proof (validate_parameters_0 N M K) as H0.
  pose proof (validate_parameters_0_or_1 N M K) as H01.
  unfold MAX_MATRIX_SIZE in H0. split_and!.
  - done.
  - rewrite <-H0. destruct H01 as [H|H]; rewrite H; by split.
  - unfold main. destruct (Z.eqb_spec size 2) as [->|Hsize]; simpl.
    + split; [|done]. destruct H01 as [H|H]; rewrite H; simpl; [done|].
      intros Hr. by apply report_not_error in Hr.
    + done.
  - unfold main. destruct (Z.eqb_spec size 2) as [->|Hsize]; simpl.
    + destruct H01 as [H|H]; rewrite H; simpl; [done|].
      split; [|by intros [_ ?]]. intros Hr. by apply report_not_error in Hr.
    + split; [done|]. by intros [? _].
  - unfold main_1. destruct H01 as [H|H]; rewrite H; simpl; [done|].
    split; [|done]. intros Hr. by apply report_not_error in Hr.
Qed.

(** * The matrix generator *)

Lemma set_cell_shape N M m i j v :
  has_shape N M m → has_shape N M (set_cell m i j v).
Proof.
  intros [Hlen Hrows]. unfold set_cell. case_match; [done|]. split.
  - by rewrite length_alter.
  - apply Forall_alter; [done|]. intros r _ Hr. by rewrite length_insert.
Qed.

Lemma cell_set_cell_eq N M m i j v :
  has_shape N M m → 0 ≤ i < N → 0 ≤ j < M → cell (set_cell m i j v) i j = v.
Proof.
  intros [Hlen Hrows] Hi Hj. unfold cell, set_cell.
  rewrite (proj2 (Z.ltb_ge i 0)), (proj2 (Z.ltb_ge j 0)) by lia. simpl.
  rewrite list_lookup_alter_eq.
  destruct (lookup_lt_is_Some_2 m (Z.to_nat i)) as [r Hr]; [lia|].
  rewrite Hr. simpl.
  rewrite Forall_forall in Hrows.
  specialize (Hrows r (list_elem_of_lookup_2 _ _ _ Hr)).
  rewrite list_lookup_insert_eq by lia. done.
Qed.

Lemma cell_set_cell_ne m i j v i' j' :
  (i', j') ≠ (i, j) → cell (set_cell m i j v) i' j' = cell m i' j'.
Proof.
  intros Hne. unfold cell, set_cell.
  destruct (Z.ltb_spec i 0), (Z.ltb_spec j 0); simpl; try done.
  destruct (Z.ltb_spec i' 0), (Z.ltb_spec j' 0); simpl; try done.
  destruct (decide (i' = i)) as [->|Hi].
  - rewrite list_lookup_alter_eq. destruct (m !! Z.to_nat i) as [r|]; simpl; [|done].
    rewrite list_lookup_insert_ne; [done|]. intros ?. apply Hne. f_equal. lia.
  - rewrite list_lookup_alter_ne; [done|]. lia.
Qed.

Lemma matrix_ext N M m1 m2 :
  has_shape N M m1 → has_shape N M m2 →
  (∀ i j, 0 ≤ i < N → 0 ≤ j < M → cell m1 i j = cell m2 i j) → m1 = m2.
Proof.
  intros [Hlen1 Hrows1] [Hlen2 Hrows2] Hcells.
  rewrite Forall_forall in Hrows1, Hrows2.
  apply list_eq_same_length with (length m1); [lia|lia|].
  intros i r1 r2 Hi Hr1 Hr2. 
  pose proof (Hrows1 r1 (list_elem_of_lookup_2 _ _ _ Hr1)) as Hl1.
  pose proof (Hrows2 r2 (list_elem_of_lookup_2 _ _ _ Hr2)) as Hl2.
  apply list_eq_same_length with (length r1); [lia|lia|].
  intros j v1 v2 Hj Hv1 Hv2.
  rewrite <-(cell_lookup m1 i j r1 v1), <-(cell_lookup m2 i j r2 v2) by done.
  apply Hcells; lia.
Qed.

Lemma all_cells_spec N M i j : (i, j) ∈ all_cells N M ↔ 0 ≤ i < N ∧ 0 ≤ j < M.
Proof.
  unfold all_cells. rewrite list_elem_of_bind. split.
  - intros (i' & (j' & Hij & Hj)%list_elem_of_bind & Hi).
    apply list_elem_of_singleton in Hij. simplify_eq.
    apply elem_of_seqZ in Hi, Hj. lia.
  - intros [Hi Hj]. exists i. rewrite list_elem_of_bind, elem_of_seqZ.
    split; [|lia]. exists j. rewrite elem_of_seqZ, list_elem_of_singleton.
    split; [done|lia].
Qed.

Section GeneratorFacts.

Variable rng : Type.
Variable srand : Z → rng.
Variable rand : rng → Z * rng.
Variables N M : Z.

Local Abbreviation step :=
  (λ (s : matrix * rng) (ij : Z * Z), generate_cell rand ij.1 s ij.2).

Lemma generate_from_all_cells seed m :
  generate_from srand rand seed m N M = foldl step (m, srand seed) (all_cells N M).
Proof.
  unfold generate_from, all_cells. rewrite foldl_bind.
  generalize (m, srand seed). induction (seqZ 0 N) as [|i rows IH]; intros s; [done|].
  simpl. rewrite <-IH. f_equal. rewrite foldl_bind.
  clear. revert s. induction (seqZ 0 M) as [|j cols IH]; intros s; [done|].
  simpl. apply IH.
Qed.

(** One iteration stores the drawn entry at [(i, j)] and touches nothing
    else. *)
Lemma generate_cell_spec m g i j :
  has_shape N M m → 0 ≤ i < N → 0 ≤ j < M →
  let s' := generate_cell rand i (m, g) j in
  s'.2 = (draw_entry rand g).2 ∧
  has_shape N M s'.1 ∧
  cell s'.1 i j = (draw_entry rand g).1 ∧
  ∀ i' j', (i', j') ≠ (i, j) → cell s'.1 i' j' = cell m i' j'.
Proof.
  intros Hm Hi Hj. unfold generate_cell, draw_entry.
  destruct (rand g) as [r g1].
  set (v := Z.rem r (MAX_VALUE - MIN_VALUE + 1) + MIN_VALUE).
  pose proof (set_cell_shape N M m i j v Hm) as Hm1.
  rewrite (cell_set_cell_eq N M m i j v) by done.
  destruct (Z.rem v 2 =? 0).
  - destruct (rand g1) as [r' g2]. destruct (Z.rem r' 3 =? 0); simpl.
    + split_and!; [done|by apply set_cell_shape|by eapply cell_set_cell_eq|].
      intros i' j' Hne. by rewrite !cell_set_cell_ne.
    + split_and!; [done|done|by eapply cell_set_cell_eq|].
      intros i' j' Hne. by rewrite cell_set_cell_ne.
  - simpl. split_and!; [done|done|by eapply cell_set_cell_eq|].
    intros i' j' Hne. by rewrite cell_set_cell_ne.
Qed.

(** Two runs from the same generator state over blocks of the same shape
    leave the same generator state and blocks that agree on every cell
    filled. *)
Lemma generate_cells_agree l :
  (∀ i j, (i, j) ∈ l → 0 ≤ i < N ∧ 0 ≤ j < M) →
  ∀ m1 m2 g P,
    has_shape N M m1 → has_shape N M m2 → agree P m1 m2 →
    (foldl step (m1, g) l).2 = (foldl step (m2, g) l).2 ∧
    has_shape N M (foldl step (m1, g) l).1 ∧
    has_shape N M (foldl step (m2, g) l).1 ∧
    agree (λ i j, P i j ∨ (i, j) ∈ l) (foldl step (m1, g) l).1 (foldl step (m2, g) l).1.
Proof.
  induction l as [|[i j] l IH]; intros Hl m1 m2 g P Hm1 Hm2 HP.
  { simpl. split_and!; [done..|]. intros i j [?|[]%elem_of_nil]. by apply HP. }
  destruct (Hl i j) as [Hi Hj]; [by left|].
  destruct (generate_cell_spec m1 g i j Hm1 Hi Hj) as (Hg1 & Hs1 & Hv1 & Hf1).
  destruct (generate_cell_spec m2 g i j Hm2 Hi Hj) as (Hg2 & Hs2 & Hv2 & Hf2).
  change (foldl step (m1, g) ((i, j) :: l))
    with (foldl step (generate_cell rand i (m1, g) j) l).
  change (foldl step (m2, g) ((i, j) :: l))
    with (foldl step (generate_cell rand i (m2, g) j) l).
  destruct (generate_cell rand i (m1, g) j) as [m1' g1'].
  destruct (generate_cell rand i (m2, g) j) as [m2' g2'].
  cbn [fst snd] in *. subst g1' g2'.
  destruct (IH (λ i j H, Hl i j (list_elem_of_further _ _ _ H)) m1' m2'
              (draw_entry rand g).2
              (λ i' j', P i' j' ∨ (i', j') = (i, j)) Hs1 Hs2)
    as (Hg & Hs1' & Hs2' & Hagree).
  { intros i' j' [HP'|Heq].
    - destruct (decide ((i', j') = (i, j))) as [[= -> ->]|Hne]; [congruence|].
      rewrite Hf1, Hf2 by done. by apply HP.
    - injection Heq as -> ->. congruence. }
  split_and!; [done..|].
  intros i' j' Hij. apply Hagree.
  destruct Hij as [?|[->|?]%elem_of_cons]; auto.
Qed.

(** When [rand] returns no negative number, every cell filled holds a value
    between -100 and 101. *)
Lemma draw_entry_range g :
  (∀ g, 0 ≤ (rand g).1) → MIN_VALUE ≤ (draw_entry rand g).1 ≤ MAX_VALUE + 1.
Proof.
  intros Hrand. unfold draw_entry, MIN_VALUE, MAX_VALUE.
  change (100 - -100 + 1) with 201.
  pose proof (Hrand g) as Hr. destruct (rand g) as [r g1]. simpl in Hr.
  assert (0 ≤ Z.rem r 201 < 201) by (apply Z.rem_bound_pos; lia).
  destruct (Z.rem _ 2 =? 0); [|simpl; lia].
  destruct (rand g1) as [r' g2]. destruct (Z.rem r' 3 =? 0); simpl; lia.
Qed.

Lemma generate_cells_within l :
  (∀ g, 0 ≤ (rand g).1) →
  (∀ i j, (i, j) ∈ l → 0 ≤ i < N ∧ 0 ≤ j < M) →
  ∀ m g P,
    has_shape N M m → within MIN_VALUE (MAX_VALUE + 1) P m →
    has_shape N M (foldl step (m, g) l).1 ∧
    within MIN_VALUE (MAX_VALUE + 1) (λ i j, P i j ∨ (i, j) ∈ l) (foldl step (m, g) l).1.
Proof.
  intros Hrand. induction l as [|[i j] l IH]; intros Hl m g P Hm HP.
  { simpl. split; [done|]. intros i j [?|[]%elem_of_nil]. by apply HP. }
  destruct (Hl i j) as [Hi Hj]; [by left|].
  destruct (generate_cell_spec m g i j Hm Hi Hj) as (_ & Hs & Hv & Hf).
  change (foldl step (m, g) ((i, j) :: l))
    with (foldl step (generate_cell rand i (m, g) j) l).
  destruct (generate_cell rand i (m, g) j) as [m' g'].
  cbn [fst snd] in *.
  destruct (IH (λ i j H, Hl i j (list_elem_of_further _ _ _ H)) m' g'
              (λ i' j', P i' j' ∨ (i', j') = (i, j)) Hs) as (Hs' & Hin).
  { intros i' j' [HP'|Heq].
    - destruct (decide ((i', j') = (i, j))) as [[= -> ->]|Hne].
      + rewrite Hv. by apply draw_entry_range.
      + rewrite Hf by done. by apply HP.
    - injection Heq as -> ->. rewrite Hv. by apply draw_entry_range. }
  split; [done|].
  intros i' j' Hij. apply Hin.
  destruct Hij as [?|[->|?]%elem_of_cons]; auto.
Qed.

End GeneratorFacts.

Lemma generate_from_independent
    (rng : Type) (srand : Z → rng) (rand : rng → Z * rng) seed N M m1 m2 :
  has_shape N M m1 → has_shape N M m2 →
  generate_from srand rand seed m1 N M = generate_from srand rand seed m2 N M.
Proof.
  intros Hm1 Hm2. rewrite !generate_from_all_cells.
  destruct (generate_cells_agree rng rand N M (all_cells N M)
              (λ i j, proj1 (all_cells_spec N M i j)) m1 m2 (srand seed)
              (λ _ _, False) Hm1 Hm2) as (Hg & Hs1 & Hs2 & Hagree); [by intros ?? []|].
  apply injective_projections; [|done].
  apply (matrix_ext N M); [done..|].
  intros i j Hi Hj. apply Hagree. right. by apply all_cells_spec.
Qed.

(** C7. Reproducibility: with the same seed and the same dimensions the
    generator produces the same matrix, whatever the state of the C library's
    generator and the contents of the freshly allocated block were on entry;
    for [matrix_solver.c] the seed is the constant 42, for
    [matrix_solver_1.c] it is the time. *)
Theorem generate_random_matrix_reproducible
    (rng : Type) (srand : Z → rng) (rand : rng → Z * rng)
    (now N M : Z) (s1 s2 : matrix * rng) :
  has_shape N M s1.1 → has_shape N M s2.1 →
  generate_random_matrix srand rand s1 N M
  = generate_random_matrix srand rand s2 N M ∧
  generate_random_matrix_1 srand rand now s1 N M
  = generate_random_matrix_1 srand rand now s2 N M.
Proof.
  intros H1 H2. unfold generate_random_matrix, generate_random_matrix_1.
  split; by apply generate_from_independent.
Qed.

Lemma generate_random_matrix_reproducible_witness :
  let s1 := (zero_block 2 3, glibc_srand 1) in
  let s2 := ([[7; 7; 7]; [8; 8; 8]], glibc_srand 2024) in
  generate_random_matrix glibc_srand glibc_rand s1 2 3
  = generate_random_matrix glibc_srand glibc_rand s2 2 3 ∧
  generate_random_matrix_1 glibc_srand glibc_rand 1700000000 s1 2 3
  = generate_random_matrix_1 glibc_srand glibc_rand 1700000000 s2 2 3.
Proof.
  apply (generate_random_matrix_reproducible (list Z) glibc_srand glibc_rand
           1700000000 2 3).
  - split; [reflexivity|repeat constructor].
  - split; [reflexivity|repeat constructor].
Defined.

(** The first numbers the model of the GNU generator returns after
    [srand(42)], and the first row [matrix_solver.c] generates from them. *)
Lemma glibc_rand_42 :
  (glibc_rand (glibc_srand 42)).1 = 71876166 ∧
  (glibc_rand (glibc_rand (glibc_srand 42)).2).1 = 708592740 ∧
  (generate_random_matrix glibc_srand glibc_rand
     (zero_block 1 6, glibc_srand 1) 1 6).1 = [[75; 31; 95; -24; -69; -100]].
Proof. by vm_compute. Qed.

(** Every entry generated lies between [MIN_VALUE] and [MAX_VALUE + 1]. *)
Lemma generated_entries_range
    (rng : Type) (srand : Z → rng) (rand : rng → Z * rng) seed N M m i j :
  (∀ g, 0 ≤ (rand g).1) → has_shape N M m → 0 ≤ i < N → 0 ≤ j < M →
  MIN_VALUE ≤ cell (generate_from srand rand seed m N M).1 i j ≤ MAX_VALUE + 1.
Proof.
  intros Hrand Hm Hi Hj. rewrite generate_from_all_cells.
  destruct (generate_cells_within rng rand N M (all_cells N M) Hrand
              (λ i j, proj1 (all_cells_spec N M i j)) m (srand seed)
              (λ _ _, False) Hm) as (_ & Hin); [by intros ?? []|].
  apply Hin. right. by apply all_cells_spec.
Qed.

(** C6. The value range [MIN_VALUE, MAX_VALUE] is exceeded: with the GNU
    generator, [matrix_solver.c] run on [N = M = 21] stores 101 in row 20,
    column 12: the draw there is 100, which is even, and the odd-biasing
    increment is applied to it. *)
Theorem generate_random_matrix_exceeds_MAX_VALUE :
  cell (generate_random_matrix glibc_srand glibc_rand
          (zero_block 21 21, glibc_srand 1) 21 21).1 20 12 = MAX_VALUE + 1.
Proof. by vm_compute. Qed.

(** The same on the smallest input: when [rand] returns 200 and then 0, the
    only entry of a 1 by 1 matrix is 101. *)
Lemma generate_random_matrix_scripted_101 :
  (generate_random_matrix (λ _, [200; 0]) scripted_rand
     ([[0]], []) 1 1).1 = [[MAX_VALUE + 1]].
Proof. by vm_compute. Qed.

(** * The two programs on the input [N = M = K = 2] *)

(** With the GNU generator the matrix of [matrix_solver.c] is
    [[75; 31]; [95; -24]].  Its only window holds three odd entries, but
    neither process has two rows: the program reports that no submatrix was
    found. *)
Lemma main_2_2_2_finds_nothing log sched0 sched1 :
  omp_schedule 1 2 2 sched0 → omp_schedule 1 2 2 sched1 →
  main log glibc_srand glibc_rand 2 2 2 2
       (zero_block 2 2, glibc_srand 1) sched0 sched1
  = NoneFound [[75; 31]; [95; -24]] (mkResult 0 (-1) neg_infinity).
Proof.
  intros Hs0 Hs1. unfold main.
  change (negb (2 =? 2)) with false. change (validate_parameters 2 2 2 =? 0) with false.
  cbv iota.
  assert ((generate_random_matrix glibc_srand glibc_rand
             (zero_block 2 2, glibc_srand 1) 2 2).1 = [[75; 31]; [95; -24]]) as ->
    by by vm_compute.
  by rewrite coordinated_search_blind.
Qed.

(** [matrix_solver_1.c], started at a time that makes its seed 42 as well,
    generates the same matrix and finds the window. *)
Lemma main_1_2_2_2_finds_window log sched :
  log_sane log → omp_schedule 2 2 2 sched →
  main_1 log glibc_srand glibc_rand 42 2 2 2
         (zero_block 2 2, glibc_srand 1) sched
  = BestFound [[75; 31]; [95; -24]]
      (mkResult 0 0 (calculate_log_product_submatrix log [[75; 31]; [95; -24]] 0 0 2)).
Proof.
  intros Hlog Hs. unfold main_1.
  change (validate_parameters 2 2 2 =? 0) with false. cbv iota.
  assert ((generate_random_matrix_1 glibc_srand glibc_rand 42
             (zero_block 2 2, glibc_srand 1) 2 2).1 = [[75; 31]; [95; -24]]) as ->
    by by vm_compute.
  set (m := [[75; 31]; [95; -24]]).
  assert (gt (calculate_log_product_submatrix log m 0 0 2)
             (max_log_product (find_best_submatrix_parallel log m 2 2 2 sched))
          = false) as Hbest by (apply find_best_not_beaten; [done|lia..]).
  assert (gt (calculate_log_product_submatrix log m 0 0 2) neg_infinity = true)
    as Hpos by (by apply qualifying_window_score).
  destruct (find_best_sentinel_or_window log m 2 2 2 sched Hs) as [Hr|(Hi & Hj & Hr)].
  - rewrite Hr in Hbest. simpl in Hbest. by rewrite Hpos in Hbest.
  - destruct (find_best_submatrix_parallel log m 2 2 2 sched) as [r c sc].
    simpl in *. assert (r = 0) as -> by lia. assert (c = 0) as -> by lia.
    by subst sc.
Qed.

(** * Further facts about binary64 comparison *)

Lemma ge_trans a b c : ge a b = true → ge b c = true → ge a c = true.
Proof. by_float_cases. Qed.

Lemma ge_refl a : is_nan a = false → ge a a = true.
Proof. by_float_cases. Qed.

Lemma ge_neg_infinity a : is_nan a = false → ge a neg_infinity = true.
Proof. by_float_cases. Qed.

Lemma gt_neg_infinity_not a : gt a neg_infinity = true → a ≠ neg_infinity.
Proof. by intros H ->. Qed.

(** Two scores that are greater than or equal to each other are the same
    double: a score is never [-0]. *)
Lemma ge_antisym a b :
  score_value_range a → score_value_range b →
  ge a b = true → ge b a = true → a = b.
Proof.
  unfold score_value_range, neg_infinity.
  intros [->|Ha] [->|Hb]; revert Ha Hb || revert Ha || revert Hb || idtac;
    unfold ge, nonneg, SFleb, SFcompare;
    repeat match goal with
    | x : double |- _ => destruct x as [[]|[]| |[] ? ?]
    end; try done.
  intros _ _.
  repeat match goal with
  | |- context [Z.compare ?e ?e'] => destruct (Z.compare_spec e e')
  | |- context [PosDef.Pos.compare_cont Eq ?m ?m'] =>
      change (PosDef.Pos.compare_cont Eq m m') with (Pos.compare m m');
      destruct (Pos.compare_spec m m')
  end; try done; try lia; intros; by subst.
Qed.

(** * Further facts about the reduction *)

(** A running best that changed is strictly above its start. *)
Lemma foldl_critical_above (ls : list SubmatrixResult) (b : SubmatrixResult) :
  foldl critical b ls = b ∨
  gt (max_log_product (foldl critical b ls)) (max_log_product b) = true.
Proof.
  revert b. induction ls as [|l ls IH]; intros b; [by left|]. simpl.
  assert (critical b l = if gt (max_log_product l) (max_log_product b)
                         then l else b) as -> by done.
  destruct (gt (max_log_product l) (max_log_product b)) eqn:Hlb; [|apply IH].
  right. destruct (IH l) as [->|Hr]; [done|]. by eapply gt_trans.
Qed.

Section More.

Variable log : double → double.
Variable m : matrix.
Variables N M K : Z.

Lemma scan_thread_above its :
  scan_thread log m N M K its = sentinel ∨
  gt (max_log_product (scan_thread log m N M K its)) neg_infinity = true.
Proof.
  unfold scan_thread. rewrite scan_thread_critical. apply foldl_critical_above.
Qed.

Lemma find_best_above sched :
  find_best_submatrix_parallel log m N M K sched = sentinel ∨
  gt (max_log_product (find_best_submatrix_parallel log m N M K sched))
     neg_infinity = true.
Proof. apply foldl_critical_above. Qed.

(** The full description of a result: the sentinel, or the candidate of an
    iteration of the space with a score above negative infinity. *)
Lemma find_best_cases sched :
  omp_schedule N M K sched →
  let r := find_best_submatrix_parallel log m N M K sched in
  r = sentinel ∨
  (0 ≤ row r ≤ N - K ∧ 0 ≤ col r ≤ M - K ∧
   max_log_product r = calculate_log_product_submatrix log m (row r) (col r) K ∧
   gt (max_log_product r) neg_infinity = true).
Proof.
  intros Hs.
  destruct (find_best_above sched) as [?|Habove]; [by left|].
  destruct (find_best_sentinel_or_window log m N M K sched Hs) as [?|(?&?&?)];
    [by left|by right].
Qed.

Lemma find_best_score_range sched :
  log_sane log → omp_schedule N M K sched →
  score_value_range
    (max_log_product (find_best_submatrix_parallel log m N M K sched)).
Proof.
  intros Hlog Hs.
  destruct (find_best_sentinel_or_window log m N M K sched Hs) as [->|(_ & _ & ->)].
  - by left.
  - apply calculate_nonneg, Hlog.
Qed.

Lemma find_best_ge sched i j :
  log_sane log → omp_schedule N M K sched → 0 ≤ i ≤ N - K → 0 ≤ j ≤ M - K →
  ge (max_log_product (find_best_submatrix_parallel log m N M K sched))
     (calculate_log_product_submatrix log m i j K) = true.
Proof.
  intros Hlog Hs Hi Hj. apply not_gt_ge.
  - by apply calculate_not_nan.
  - by destruct (find_best_spec log m N M K sched) as (? & _).
  - by apply find_best_not_beaten.
Qed.

Lemma find_best_sentinel_iff sched :
  log_sane log → omp_schedule N M K sched →
  find_best_submatrix_parallel log m N M K sched = sentinel ↔
  ∀ i j, 0 ≤ i ≤ N - K → 0 ≤ j ≤ M - K →
         filter (λ v, qualifying v = true) (window_cells m i j K) = [].
Proof.
  intros Hlog Hs. split.
  - intros Hr i j Hi Hj.
    pose proof (find_best_not_beaten log m N M K sched i j Hs Hi Hj) as Hb.
    rewrite Hr in Hb. simpl in Hb.
    destruct (filter _ _) eqn:Hf; [done|].
    rewrite qualifying_window_score in Hb; [done..|]. by rewrite Hf.
  - intros Hnone.
    destruct (find_best_cases sched Hs) as [?|(Hi & Hj & Hr & Habove)]; [done|].
    rewrite Hr, calculate_log_score in Habove. unfold log_score in Habove.
    by rewrite Hnone in Habove.
Qed.

Lemma find_best_schedule_independent sched sched' :
  log_sane log → omp_schedule N M K sched → omp_schedule N M K sched' →
  max_log_product (find_best_submatrix_parallel log m N M K sched)
  = max_log_product (find_best_submatrix_parallel log m N M K sched').
Proof.
  intros Hlog Hs Hs'.
  assert (∀ s s', omp_schedule N M K s → omp_schedule N M K s' →
            ge (max_log_product (find_best_submatrix_parallel log m N M K s))
               (max_log_product (find_best_submatrix_parallel log m N M K s')) = true)
    as Hge.
  { intros s s' H H'.
    destruct (find_best_sentinel_or_window log m N M K s' H') as [->|(Hi & Hj & ->)].
    - apply ge_neg_infinity. by destruct (find_best_spec log m N M K s) as (? & _).
    - by apply find_best_ge. }
  apply ge_antisym; auto using find_best_score_range.
Qed.

End More.

(** * Further facts about the coordinator *)

Lemma half_of_bounds N : 0 ≤ N → 0 ≤ half_of N ≤ N.
Proof.
  intros HN. unfold half_of. rewrite Z.quot_div_nonneg by lia.
  split; [apply Z.div_pos; lia|]. apply Z.div_le_upper_bound; lia.
Qed.

Lemma select_better_ge a b :
  is_nan (max_log_product a) = false → is_nan (max_log_product b) = false →
  ge (max_log_product (select_better a b)) (max_log_product a) = true ∧
  ge (max_log_product (select_better a b)) (max_log_product b) = true.
Proof.
  intros Ha Hb. unfold select_better.
  destruct (gt (max_log_product a) (max_log_product b)) eqn:Hab.
  - split; [by apply ge_refl|]. revert Hab. clear.
    generalize (max_log_product a) (max_log_product b). intros x y. by_float_cases.
  - split; [by apply not_gt_ge|by apply ge_refl].
Qed.

Section MoreCoordinator.

Variable log : double → double.
Variable m : matrix.
Variables N M K : Z.

Lemma rank0_not_nan sched :
  is_nan (max_log_product (rank0_search log m N M K sched)) = false.
Proof. by destruct (find_best_spec log m (half_of N) M K sched) as (? & _). Qed.

Lemma rank1_not_nan sched :
  is_nan (max_log_product (rank1_search log m N M K sched)) = false.
Proof.
  unfold rank1_search, adjust_row. simpl.
  by destruct (find_best_spec log (received_block m N M) (N - half_of N) M K sched)
    as (? & _).
Qed.

(** The two workers together cover every window that lies inside one of the
    two row blocks. *)
Lemma coordinated_search_covers_blocks sched0 sched1 i j :
  log_sane log → 0 ≤ N →
  omp_schedule (half_of N) M K sched0 →
  omp_schedule (N - half_of N) M K sched1 →
  (0 ≤ i ∧ i + K ≤ half_of N) ∨ (half_of N ≤ i ∧ i + K ≤ N) →
  0 ≤ j ≤ M - K →
  ge (max_log_product (coordinated_search log m N M K sched0 sched1))
     (calculate_log_product_submatrix log m i j K) = true.
Proof.
  intros Hlog HN Hs0 Hs1 Hi Hj. unfold coordinated_search.
  destruct (select_better_ge (rank0_search log m N M K sched0)
              (rank1_search log m N M K sched1)) as [H0 H1];
    [apply rank0_not_nan|apply rank1_not_nan|].
  destruct Hi as [Hi|Hi].
  - eapply ge_trans; [exact H0|]. unfold rank0_search.
    apply find_best_ge; [done..|lia|done].
  - eapply ge_trans; [exact H1|]. unfold rank1_search, adjust_row. simpl.
    replace i with (half_of N + (i - half_of N)) by lia.
    rewrite <-(calculate_received_block log m N M K) by lia.
    apply find_best_ge; [done..|lia|done].
Qed.

Lemma coordinated_search_score_range sched0 sched1 :
  log_sane log → 0 ≤ N →
  omp_schedule (half_of N) M K sched0 →
  omp_schedule (N - half_of N) M K sched1 →
  score_value_range (max_log_product (coordinated_search log m N M K sched0 sched1)).
Proof.
  intros Hlog HN Hs0 Hs1.
  destruct (coordinated_search_sound log m N M K sched0 sched1
              (half_of_bounds N HN) Hs0 Hs1) as [->|(_ & _ & ->)].
  - by left.
  - apply calculate_nonneg, Hlog.
Qed.

(** With [K = 1] no window lies across the cut. *)
Lemma coordinated_search_equal_K1 sched0 sched1 sched :
  K = 1 → log_sane log → 0 ≤ N →
  omp_schedule (half_of N) M K sched0 →
  omp_schedule (N - half_of N) M K sched1 →
  omp_schedule N M K sched →
  max_log_product (coordinated_search log m N M K sched0 sched1)
  = max_log_product (find_best_submatrix_parallel log m N M K sched).
Proof.
  intros HK Hlog HN Hs0 Hs1 Hs.
  pose proof (half_of_bounds N HN) as Hhalf.
  apply ge_antisym.
  - by apply coordinated_search_score_range.
  - by apply find_best_score_range.
  - destruct (find_best_sentinel_or_window log m N M K sched Hs) as [->|(Hi & Hj & ->)].
    + apply ge_neg_infinity. unfold coordinated_search, select_better.
      case_match; [apply rank0_not_nan|apply rank1_not_nan].
    + apply coordinated_search_covers_blocks; [done..|lia|done].
  - by apply coordinated_search_below_unsplit.
Qed.

(** A result of the two workers that [main] goes on to print. *)
Lemma coordinated_search_cases sched0 sched1 :
  0 ≤ N →
  omp_schedule (half_of N) M K sched0 →
  omp_schedule (N - half_of N) M K sched1 →
  let r := coordinated_search log m N M K sched0 sched1 in
  (col r = -1 ∧ max_log_product r = neg_infinity) ∨
  (0 ≤ row r ≤ N - K ∧ 0 ≤ col r ≤ M - K ∧
   max_log_product r = calculate_log_product_submatrix log m (row r) (col r) K ∧
   gt (max_log_product r) neg_infinity = true).
Proof.
  intros HN Hs0 Hs1. pose proof (half_of_bounds N HN) as Hhalf.
  unfold coordinated_search, select_better. case_match.
  - unfold rank0_search.
    destruct (find_best_cases log m (half_of N) M K sched0 Hs0)
      as [->|(Hi & Hj & Hr & Ha)]; [by left|right].
    split_and!; [lia..|done|done].
  - unfold rank1_search.
    destruct (find_best_cases log (received_block m N M) (N - half_of N) M K sched1 Hs1)
      as [->|(Hi & Hj & Hr & Ha)]; [by left|right].
    simpl. split_and!; [lia..| |done].
    rewrite Hr, calculate_received_block by lia. f_equal. lia.
Qed.

End MoreCoordinator.

(** * The iteration space *)

Lemma bind_length_const {A B} (f : A → list B) (l : list A) (n : nat) :
  (∀ x, length (f x) = n) → length (l ≫= f) = (length l * n)%nat.
Proof.
  intros Hf. induction l as [|x l IH]; [done|].
  rewrite bind_cons, length_app, Hf, IH. simpl. lia.
Qed.

Lemma iteration_space_NoDup N M K : NoDup (iteration_space N M K).
Proof.
  unfold iteration_space. apply NoDup_bind.
  - intros i1 i2 [i j] _ _ (j1 & H1 & _)%list_elem_of_bind (j2 & H2 & _)%list_elem_of_bind.
    apply list_elem_of_singleton in H1, H2. congruence.
  - intros i _. apply NoDup_bind.
    + intros j1 j2 ij _ _ H1%list_elem_of_singleton H2%list_elem_of_singleton. congruence.
    + intros j _. apply NoDup_singleton.
    + apply NoDup_seqZ.
  - apply NoDup_seqZ.
Qed.

Lemma iteration_space_length N M K :
  K ≤ N + 1 → K ≤ M + 1 →
  Z.of_nat (length (iteration_space N M K)) = (N - K + 1) * (M - K + 1).
Proof.
  intros HN HM. unfold iteration_space.
  rewrite (bind_length_const _ _ (Z.to_nat (M - K + 1))).
  - rewrite length_seqZ, Nat2Z.inj_mul, !Z2Nat.id by lia. done.
  - intros i. rewrite (bind_length_const _ _ 1%nat) by done.
    rewrite length_seqZ. lia.
Qed.

(** * The two [main] functions *)



(** * Lists written by loops *)

Lemma foldl_app_bind {A B} (f : A → list B) (out : list B) (l : list A) :
  foldl (λ out x, out ++ f x) out l = out ++ (l ≫= f).
Proof.
  revert out. induction l as [|x l IH]; intros out.
  - simpl. by rewrite app_nil_r.
  - rewrite bind_cons, app_assoc. apply IH.
Qed.

Lemma omap_bind {A B C} (f : B → option C) (g : A → list B) (l : list A) :
  omap f (l ≫= g) = l ≫= (λ x, omap f (g x)).
Proof.
  induction l as [|x l IH]; [done|].
  by rewrite !bind_cons, omap_app, IH.
Qed.

Lemma filter_bind {A B} (P : B → Prop) `{!∀ x, Decision (P x)}
    (g : A → list B) (l : list A) :
  filter P (l ≫= g) = l ≫= (λ x, filter P (g x)).
Proof.
  induction l as [|x l IH]; [done|].
  by rewrite !bind_cons, filter_app, IH.
Qed.

Lemma bind_length_ext {A B C} (f : A → list B) (g : A → list C) (l : list A) :
  (∀ x, length (f x) = length (g x)) → length (l ≫= f) = length (l ≫= g).
Proof.
  intros Hfg. induction l as [|x l IH]; [done|].
  by rewrite !bind_cons, !length_app, Hfg, IH.
Qed.

(** Rows [r0 .. r0+n-1], columns [c0 .. c0+k-1] of a block, read cell by
    cell, are the corresponding slices of its rows. *)
Lemma cells_slice (m : matrix) N M r0 n c0 k :
  has_shape N M m → 0 ≤ r0 → 0 ≤ n → r0 + n ≤ N → 0 ≤ c0 → 0 ≤ k → c0 + k ≤ M →
  (λ i, (λ j, cell m i j) <$> seqZ c0 k) <$> seqZ r0 n
  = (λ r, take (Z.to_nat k) (drop (Z.to_nat c0) r))
      <$> take (Z.to_nat n) (drop (Z.to_nat r0) m).
Proof.
  intros [Hlen Hrows] Hr0 Hn HrN Hc0 Hk HcM. rewrite Forall_forall in Hrows.
  apply list_eq_same_length with (Z.to_nat n).
  - rewrite length_fmap, length_take, length_drop. lia.
  - by rewrite length_fmap, length_seqZ.
  - intros i r1 r2 Hi. rewrite !list_lookup_fmap, lookup_seqZ_lt by lia.
    rewrite lookup_take_lt, lookup_drop by done. simpl.
    destruct (m !! (Z.to_nat r0 + i)%nat) as [r|] eqn:Hr; simpl; [|done].
    intros [= <-] [= <-].
    pose proof (Hrows r (list_elem_of_lookup_2 _ _ _ Hr)) as Hlr.
    apply list_eq_same_length with (Z.to_nat k).
    + rewrite length_take, length_drop. lia.
    + by rewrite length_fmap, length_seqZ.
    + intros j v1 v2 Hj. rewrite list_lookup_fmap, lookup_seqZ_lt by lia.
      rewrite lookup_take_lt, lookup_drop by done. simpl.
      intros [= <-] Hv.
      rewrite <-(cell_lookup m _ _ r v2 Hr Hv). f_equal; lia.
Qed.

Lemma received_block_drop m N M :
  has_shape N M m → 0 ≤ N →
  received_block m N M = drop (Z.to_nat (half_of N)) m.
Proof.
  intros Hm HN. pose proof (half_of_bounds N HN) as Hh.
  pose proof Hm as [Hlen Hrows].
  destruct m as [|r0 m'].
  { simpl in Hlen. subst N. by rewrite drop_nil. }
  assert (0 ≤ M) as HM by (apply Forall_cons in Hrows as [Hr _]; lia).
  unfold received_block.
  rewrite (cells_slice _ N M (half_of N) (N - half_of N) 0 M) by (done || lia).
  rewrite take_ge by (rewrite length_drop; lia).
  rewrite <-(list_fmap_id (drop _ (r0 :: m'))) at 2.
  apply Forall_fmap_ext_1, Forall_forall. intros r Hr.
  rewrite Forall_forall in Hrows.
  assert (r ∈ r0 :: m') as Hin.
  { apply list_elem_of_lookup in Hr as [i Hi]. rewrite lookup_drop in Hi.
    by eapply list_elem_of_lookup_2. }
  pose proof (Hrows r Hin). simpl. rewrite drop_0, take_ge by lia. done.
Qed.

Lemma received_block_shape m N M :
  has_shape N M m → 0 ≤ N → has_shape (N - half_of N) M (received_block m N M).
Proof.
  intros Hm HN. pose proof (half_of_bounds N HN) as Hh.
  rewrite received_block_drop by done. destruct Hm as [Hlen Hrows]. split.
  - rewrite length_drop. lia.
  - by apply Forall_drop.
Qed.

(** * Printing *)

(** The tokens of one row of [print_matrix]. *)
Lemma print_matrix_row_tokens m M max_print print_M out i :
  print_matrix_row m M max_print print_M out i
  = out ++ (seqZ 0 print_M ≫= λ j, [Number (cell m i j)])
        ++ (if M >? max_print then [RowDots] else []) ++ [Newline].
Proof.
  unfold print_matrix_row. rewrite (foldl_app_bind (λ j, [Number (cell m i j)])).
  destruct (M >? max_print); by rewrite <-?app_assoc.
Qed.

Lemma print_matrix_tokens m N M max_print :
  print_matrix m N M max_print
  = [MatrixHeader N M]
    ++ (seqZ 0 (if N >? max_print then max_print else N) ≫= λ i,
          (seqZ 0 (if M >? max_print then max_print else M) ≫= λ j,
             [Number (cell m i j)])
          ++ (if M >? max_print then [RowDots] else []) ++ [Newline])
    ++ (if N >? max_print then [MoreRows] else []) ++ [Newline].
Proof.
  unfold print_matrix.
  set (print_N := if N >? max_print then max_print else N).
  set (print_M := if M >? max_print then max_print else M).
  assert (∀ out l, foldl (print_matrix_row m M max_print print_M) out l
            = out ++ (l ≫= λ i, (seqZ 0 print_M ≫= λ j, [Number (cell m i j)])
                        ++ (if M >? max_print then [RowDots] else []) ++ [Newline]))
    as ->.
  { intros out l. revert out. induction l as [|i l IH]; intros out.
    - simpl. by rewrite app_nil_r.
    - simpl foldl. rewrite IH, print_matrix_row_tokens, bind_cons.
      by rewrite <-!app_assoc. }
  destruct (N >? max_print); by rewrite <-?app_assoc.
Qed.

Lemma printed_numbers_app out1 out2 :
  printed_numbers (out1 ++ out2) = printed_numbers out1 ++ printed_numbers out2.
Proof. apply omap_app. Qed.

Lemma print_matrix_numbers m N M max_print :
  printed_numbers (print_matrix m N M max_print)
  = seqZ 0 (if N >? max_print then max_print else N) ≫= λ i,
      seqZ 0 (if M >? max_print then max_print else M) ≫= λ j, [cell m i j].
Proof.
  rewrite print_matrix_tokens, !printed_numbers_app.
  replace (printed_numbers (if N >? max_print then [MoreRows] else []))
    with (@nil Z) by (by destruct (N >? max_print)).
  change (printed_numbers [Newline]) with (@nil Z).
  change (printed_numbers [MatrixHeader N M]) with (@nil Z).
  rewrite !app_nil_r, app_nil_l. unfold printed_numbers. rewrite omap_bind.
  apply bind_ext_elem_of. intros i _. rewrite !omap_app.
  replace (omap (λ t, match t with Number v => Some v | _ => None end)
             (if M >? max_print then [RowDots] else []))
    with (@nil Z) by (by destruct (M >? max_print)).
  simpl. rewrite !app_nil_r, omap_bind. by apply bind_ext_elem_of.
Qed.

Lemma bind_singleton_fmap {A B} (f : A → B) (l : list A) :
  l ≫= (λ x, [f x]) = f <$> l.
Proof. induction l as [|x l IH]; [done|]. by rewrite bind_cons, IH. Qed.

Lemma bind_concat_fmap {A B} (f : A → list B) (l : list A) :
  l ≫= f = concat (f <$> l).
Proof. induction l as [|x l IH]; [done|]. by rewrite bind_cons, IH. Qed.

(** On a block of [N] rows and [M] columns [print_matrix] writes the top
    left corner of at most [max_print] rows and columns. *)
Lemma print_matrix_corner m N M max_print :
  has_shape N M m → 0 ≤ max_print →
  printed_numbers (print_matrix m N M max_print)
  = concat (take (Z.to_nat max_print) <$> take (Z.to_nat max_print) m).
Proof.
  intros Hm Hmax. pose proof Hm as [Hlen Hrows].
  rewrite print_matrix_numbers, bind_concat_fmap. f_equal.
  destruct m as [|r0 m'].
  { simpl in Hlen. subst N. rewrite take_nil.
    change (Z.of_nat 0) with 0. by destruct (Z.gtb_spec 0 max_print); [lia|]. }
  assert (0 ≤ M) as HM by (apply Forall_cons in Hrows as [Hr _]; lia).
  set (print_N := if N >? max_print then max_print else N).
  set (print_M := if M >? max_print then max_print else M).
  assert (0 ≤ print_N ≤ N ∧ 0 ≤ print_M ≤ M) as [HpN HpM]
    by (unfold print_N, print_M;
        destruct (Z.gtb_spec N max_print), (Z.gtb_spec M max_print); lia).
  erewrite (list_fmap_ext _ (λ i, (λ j, cell (r0 :: m') i j) <$> seqZ 0 print_M));
    [|intros ? i _; apply bind_singleton_fmap].
  rewrite (cells_slice _ N M 0 print_N 0 print_M) by (done || lia).
  rewrite drop_0.
  assert (take (Z.to_nat print_N) (r0 :: m') = take (Z.to_nat max_print) (r0 :: m'))
    as ->.
  { unfold print_N. destruct (Z.gtb_spec N max_print); [done|].
    rewrite !take_ge; [done|lia..]. }
  apply Forall_fmap_ext_1, Forall_forall. intros r Hr%subseteq_take.
  rewrite Forall_forall in Hrows. pose proof (Hrows r Hr). simpl. rewrite drop_0.
  unfold print_M. destruct (Z.gtb_spec M max_print); [done|].
  rewrite !take_ge; [done|lia..].
Qed.

Lemma is_odd_nonzero v : is_odd v = true → v ≠ 0.
Proof. by intros H ->. Qed.

Lemma is_odd_is_qualifying v : is_odd v = qualifying v.
Proof.
  rewrite <-is_odd_qualifying. destruct (is_odd v) eqn:Hv; [|done].
  apply is_odd_nonzero in Hv. by destruct (Z.eqb_spec v 0).
Qed.

Lemma print_submatrix_cell_tokens m i out j :
  print_submatrix_cell m i out j
  = out ++ [Number (cell m i j); if is_odd (cell m i j) then Star else Blank].
Proof.
  unfold print_submatrix_cell. destruct (is_odd _); by rewrite <-app_assoc.
Qed.

Lemma print_submatrix_tokens m r c K :
  print_submatrix m r c K
  = [SubmatrixHeader r c]
    ++ (seqZ r K ≫= λ i,
          (seqZ c K ≫= λ j,
             [Number (cell m i j); if is_odd (cell m i j) then Star else Blank])
          ++ [Newline])
    ++ [Legend].
Proof.
  assert (∀ i out, foldl (print_submatrix_cell m i) out (seqZ c K)
            = out ++ (seqZ c K ≫= λ j,
                        [Number (cell m i j);
                         if is_odd (cell m i j) then Star else Blank])) as Hrow.
  { intros i out. revert out. induction (seqZ c K) as [|j cols IH]; intros out.
    - simpl. by rewrite app_nil_r.
    - simpl foldl. by rewrite IH, print_submatrix_cell_tokens, bind_cons, <-app_assoc. }
  unfold print_submatrix. cbv zeta. rewrite app_assoc. f_equal.
  generalize [SubmatrixHeader r c].
  induction (seqZ r K) as [|i rows IH]; intros out.
  - simpl. by rewrite app_nil_r.
  - simpl foldl. by rewrite IH, Hrow, bind_cons, <-!app_assoc.
Qed.

Lemma print_submatrix_numbers m r c K :
  printed_numbers (print_submatrix m r c K) = window_cells m r c K.
Proof.
  rewrite print_submatrix_tokens, !printed_numbers_app.
  change (printed_numbers [Legend]) with (@nil Z).
  change (printed_numbers [SubmatrixHeader r c]) with (@nil Z).
  rewrite app_nil_r, app_nil_l. unfold printed_numbers, window_cells.
  rewrite omap_bind. apply bind_ext_elem_of. intros i _.
  rewrite omap_app. simpl. rewrite app_nil_r, omap_bind.
  apply bind_ext_elem_of. intros j _. by destruct (is_odd _).
Qed.

Lemma print_submatrix_stars log m r c K :
  Z.of_nat (printed_stars (print_submatrix m r c K)) = (score_loops log m r c K).2.
Proof.
  rewrite score_loops_window_cells, foldl_score_value. simpl.
  rewrite Z.add_0_l. f_equal.
  unfold printed_stars. rewrite print_submatrix_tokens, !filter_app, !length_app.
  simpl. rewrite Nat.add_0_r. unfold window_cells. rewrite !filter_bind.
  apply bind_length_ext. intros i. rewrite filter_app, length_app. simpl.
  rewrite Nat.add_0_r, !filter_bind. apply bind_length_ext. intros j.
  rewrite is_odd_is_qualifying, (filter_cons _ (cell m i j)), filter_nil.
  case_decide as Hq; [by rewrite Hq|].
  apply not_true_is_false in Hq. by rewrite Hq.
Qed.

(** * Scores depend on absolute values only *)

Lemma cell_negated m i j : cell (negated m) i j = - cell m i j.
Proof.
  unfold cell, negated. destruct (_ || _); [done|].
  rewrite list_lookup_fmap. destruct (m !! Z.to_nat i) as [r|]; simpl; [|done].
  rewrite list_lookup_fmap. by destruct (r !! Z.to_nat j).
Qed.

Lemma score_cell_negated log m i acc j :
  score_cell log (negated m) i acc j = score_cell log m i acc j.
Proof.
  unfold score_cell, is_odd. rewrite cell_negated, Z.abs_opp.
  by replace (- cell m i j =? 0) with (cell m i j =? 0) by lia.
Qed.

Lemma calculate_negated log m r c K :
  calculate_log_product_submatrix log (negated m) r c K
  = calculate_log_product_submatrix log m r c K.
Proof.
  unfold calculate_log_product_submatrix, score_loops.
  generalize (zero, 0). induction (seqZ r K) as [|i rows IH]; intros acc; [done|].
  simpl foldl. rewrite IH.
  assert (foldl (score_cell log (negated m) i) acc (seqZ c K)
          = foldl (score_cell log m i) acc (seqZ c K)) as ->; [|done].
  clear. revert acc. induction (seqZ c K) as [|j cols IH]; intros acc; [done|].
  simpl. by rewrite score_cell_negated, IH.
Qed.

Lemma find_best_negated log m N M K sched :
  find_best_submatrix_parallel log (negated m) N M K sched
  = find_best_submatrix_parallel log m N M K sched.
Proof.
  unfold find_best_submatrix_parallel. f_equal.
  apply list_fmap_ext. intros _ its _. unfold scan_thread.
  generalize sentinel. induction its as [|[i j] its IH]; intros b; [done|].
  simpl. by rewrite calculate_negated, IH.
Qed.

(** * The sign of a score *)

Lemma calculate_neg_infinity_iff log m r c K :
  log_sane log →
  calculate_log_product_submatrix log m r c K = neg_infinity ↔
  filter (λ v, qualifying v = true) (window_cells m r c K) = [].
Proof.
  intros Hlog. split.
  - intros Hs. destruct (filter _ _) eqn:Hf; [done|].
    pose proof (qualifying_window_score log m K r c Hlog) as Hq.
    rewrite Hs, Hf in Hq. by specialize (Hq ltac:(done)).
  - intros Hf. rewrite calculate_log_score. unfold log_score. by rewrite Hf.
Qed.

(** * The generator *)

Lemma glibc_rand_nonneg g : 0 ≤ (glibc_rand g).1.
Proof.
  unfold glibc_rand. simpl. apply Z.div_pos; [|lia].
  apply Z.mod_pos_bound. lia.
Qed.

Lemma generate_from_shape_range
    (rng : Type) (srand : Z → rng) (rand : rng → Z * rng) seed N M m :
  (∀ g, 0 ≤ (rand g).1) → has_shape N M m →
  has_shape N M (generate_from srand rand seed m N M).1 ∧
  ∀ i j, 0 ≤ i < N → 0 ≤ j < M →
    MIN_VALUE ≤ cell (generate_from srand rand seed m N M).1 i j ≤ MAX_VALUE + 1.
Proof.
  intros Hrand Hm. rewrite generate_from_all_cells.
  destruct (generate_cells_within rng rand N M (all_cells N M) Hrand
              (λ i j, proj1 (all_cells_spec N M i j)) m (srand seed)
              (λ _ _, False) Hm) as (Hshape & Hin); [by intros ?? []|].
  split; [done|]. intros i j Hi Hj. apply Hin. right. by apply all_cells_spec.
Qed.

(** * Further properties of the programs *)

(** X1. Every iteration of the collapsed loop nest is a window inside the
    block, no window is enumerated twice, the test [is_valid_submatrix] in
    the loop body never fails, and there are [(N-K+1) * (M-K+1)] windows. *)
Theorem iteration_space_each_window_once N M K :
  NoDup (iteration_space N M K) ∧
  (∀ i j, (i, j) ∈ iteration_space N M K ↔
          0 ≤ i ∧ i + K ≤ N ∧ 0 ≤ j ∧ j + K ≤ M) ∧
  (∀ i j, (i, j) ∈ iteration_space N M K → is_valid_submatrix i j K N M = true) ∧
  (K ≤ N + 1 → K ≤ M + 1 →
   Z.of_nat (length (iteration_space N M K)) = (N - K + 1) * (M - K + 1)).
Proof.
  split_and!.
  - apply iteration_space_NoDup.
  - intros i j. rewrite iteration_space_spec. lia.
  - intros i j Hij. by apply (iteration_space_valid N M K (i, j)).
  - apply iteration_space_length.
Qed.

(** X2. On a window that passes [is_valid_submatrix] and starts at a
    non-negative row and column of a block of [N] rows and [M] columns,
    [calculate_log_product_submatrix] reads allocated cells only. *)
Theorem calculate_reads_inside_block m N M K i j i' j' :
  has_shape N M m → 0 ≤ i → 0 ≤ j →
  is_valid_submatrix i j K N M = true →
  i ≤ i' < i + K → j ≤ j' < j + K →
  ∃ r, m !! Z.to_nat i' = Some r ∧ r !! Z.to_nat j' = Some (cell m i' j').
Proof.
  intros Hm Hi Hj Hv Hi' Hj'. unfold is_valid_submatrix in Hv.
  apply (window_reads_allocated m N M K i j); [done|lia..].
Qed.

Lemma calculate_reads_inside_block_witness :
  ∃ r, scenario !! Z.to_nat 2 = Some r ∧ r !! Z.to_nat 3 = Some (cell scenario 2 3).
Proof.
  apply (calculate_reads_inside_block scenario 4 4 2 1 2 2 3).
  - split; [reflexivity|repeat constructor].
  - lia.
  - lia.
  - reflexivity.
  - lia.
  - lia.
Defined.

(** X3. The score of a window is negative infinity exactly when the window
    has no odd entry; otherwise it is [+0], positive or positive infinity,
    never a NaN, [-0] or a negative number. *)
Theorem calculate_log_product_submatrix_sign log m start_row start_col K :
  log_sane log →
  score_value_range (calculate_log_product_submatrix log m start_row start_col K) ∧
  (calculate_log_product_submatrix log m start_row start_col K = neg_infinity ↔
   filter (λ v, qualifying v = true) (window_cells m start_row start_col K) = []).
Proof.
  intros Hlog. split.
  - by apply calculate_nonneg.
  - by apply calculate_neg_infinity_iff.
Qed.

Lemma calculate_log_product_submatrix_sign_witness :
  score_value_range (calculate_log_product_submatrix log_sample scenario 1 0 2) ∧
  (calculate_log_product_submatrix log_sample scenario 1 0 2 = neg_infinity ↔
   filter (λ v, qualifying v = true) (window_cells scenario 1 0 2) = []).
Proof.
  apply (calculate_log_product_submatrix_sign log_sample scenario 1 0 2).
  apply log_sample_sane.
Defined.

(** X4. The score depends on the absolute values of the entries only:
    negating every entry of the matrix changes neither the score of a window
    nor the result of the search. *)
Theorem score_ignores_signs log m N M K sched i j :
  calculate_log_product_submatrix log (negated m) i j K
  = calculate_log_product_submatrix log m i j K ∧
  find_best_submatrix_parallel log (negated m) N M K sched
  = find_best_submatrix_parallel log m N M K sched.
Proof. split; [apply calculate_negated|apply find_best_negated]. Qed.

(** X5. For every [log], even one that returns NaNs, the score
    [find_best_submatrix_parallel] returns is not a NaN and no window of the
    iteration space has a score strictly greater. *)
Theorem find_best_submatrix_parallel_any_log log m N M K sched :
  omp_schedule N M K sched →
  is_nan (max_log_product (find_best_submatrix_parallel log m N M K sched)) = false ∧
  ∀ i j, 0 ≤ i ≤ N - K → 0 ≤ j ≤ M - K →
    gt (calculate_log_product_submatrix log m i j K)
       (max_log_product (find_best_submatrix_parallel log m N M K sched)) = false.
Proof.
  intros Hs. split.
  - by destruct (find_best_spec log m N M K sched) as (? & _).
  - intros i j Hi Hj. by apply find_best_not_beaten.
Qed.

Lemma find_best_submatrix_parallel_any_log_witness :
  let log := λ _ : double, S754_nan in
  is_nan (max_log_product
            (find_best_submatrix_parallel log scenario 4 4 2 (two_threads 4 4 2 4)))
  = false ∧
  ∀ i j, 0 ≤ i ≤ 4 - 2 → 0 ≤ j ≤ 4 - 2 →
    gt (calculate_log_product_submatrix log scenario i j 2)
       (max_log_product
          (find_best_submatrix_parallel log scenario 4 4 2 (two_threads 4 4 2 4)))
    = false.
Proof.
  apply (find_best_submatrix_parallel_any_log (λ _, S754_nan) scenario 4 4 2).
  apply omp_schedule_two_threads.
Defined.

(** X6. The search returns the sentinel exactly when no window of the
    iteration space has an odd entry. *)
Theorem find_best_submatrix_parallel_sentinel_iff log m N M K sched :
  log_sane log → omp_schedule N M K sched →
  find_best_submatrix_parallel log m N M K sched = sentinel ↔
  ∀ i j, 0 ≤ i ≤ N - K → 0 ≤ j ≤ M - K →
         filter (λ v, qualifying v = true) (window_cells m i j K) = [].
Proof. apply find_best_sentinel_iff. Qed.

Lemma find_best_submatrix_parallel_sentinel_iff_witness :
  find_best_submatrix_parallel log_sample [[2; 4]; [6; 3]] 2 2 1 (two_threads 2 2 1 2)
  = sentinel ↔
  ∀ i j, 0 ≤ i ≤ 2 - 1 → 0 ≤ j ≤ 2 - 1 →
         filter (λ v, qualifying v = true) (window_cells [[2; 4]; [6; 3]] i j 1) = [].
Proof.
  apply (find_best_submatrix_parallel_sentinel_iff log_sample [[2; 4]; [6; 3]] 2 2 1).
  - apply log_sample_sane.
  - apply omp_schedule_two_threads.
Defined.

(** X7. The score returned does not depend on the schedule of the parallel
    region: two executions, whatever threads ran which iterations and in
    whatever order they merged, return the same double. *)
Theorem find_best_submatrix_parallel_score_schedule_independent
    log m N M K sched sched' :
  log_sane log → omp_schedule N M K sched → omp_schedule N M K sched' →
  max_log_product (find_best_submatrix_parallel log m N M K sched)
  = max_log_product (find_best_submatrix_parallel log m N M K sched').
Proof. apply find_best_schedule_independent. Qed.

Lemma find_best_submatrix_parallel_score_schedule_independent_witness :
  max_log_product
    (find_best_submatrix_parallel log_sample [[3; 2; 3]] 1 3 1 (sequential 1 3 1))
  = max_log_product
      (find_best_submatrix_parallel log_sample [[3; 2; 3]] 1 3 1 (two_threads 1 3 1 1)).
Proof.
  apply (find_best_submatrix_parallel_score_schedule_independent
           log_sample [[3; 2; 3]] 1 3 1).
  - apply log_sample_sane.
  - apply omp_schedule_sequential.
  - apply omp_schedule_two_threads.
Defined.

(** The coordinates do depend on the schedule: on the row [3; 2; 3] with
    [K = 1] one thread returns column 0, and two threads of which the later
    one merges first return column 2. *)
Lemma coordinates_depend_on_schedule :
  find_best_submatrix_parallel log_sample [[3; 2; 3]] 1 3 1 (sequential 1 3 1)
  = mkResult 0 0 (S754_finite false 4947709893870347 (-52)) ∧
  find_best_submatrix_parallel log_sample [[3; 2; 3]] 1 3 1 (two_threads 1 3 1 1)
  = mkResult 0 2 (S754_finite false 4947709893870347 (-52)).
Proof. by vm_compute. Qed.

(** X8. When the block is exactly one window ([N = M = K]) the search
    returns that window at [(0, 0)] if its score is above negative infinity
    and the sentinel otherwise. *)
Theorem find_best_submatrix_parallel_single_window log m K sched :
  omp_schedule K K K sched →
  find_best_submatrix_parallel log m K K K sched
  = if gt (calculate_log_product_submatrix log m 0 0 K) neg_infinity
    then mkResult 0 0 (calculate_log_product_submatrix log m 0 0 K)
    else sentinel.
Proof.
  intros Hs.
  pose proof (find_best_not_beaten log m K K K sched 0 0 Hs) as Hb.
  destruct (find_best_cases log m K K K sched Hs) as [Hr|(Hi & Hj & Hr & Ha)].
  - rewrite Hr in *. simpl in Hb. by rewrite Hb by lia.
  - destruct (find_best_submatrix_parallel log m K K K sched) as [r c s].
    simpl in *. assert (r = 0) as -> by lia. assert (c = 0) as -> by lia.
    subst s. by rewrite Ha.
Qed.

Lemma find_best_submatrix_parallel_single_window_witness :
  find_best_submatrix_parallel log_sample [[3; 3]; [3; 3]] 2 2 2 (two_threads 2 2 2 1)
  = if gt (calculate_log_product_submatrix log_sample [[3; 3]; [3; 3]] 0 0 2)
          neg_infinity
    then mkResult 0 0 (calculate_log_product_submatrix log_sample [[3; 3]; [3; 3]] 0 0 2)
    else sentinel.
Proof.
  apply (find_best_submatrix_parallel_single_window log_sample [[3; 3]; [3; 3]] 2).
  apply omp_schedule_two_threads.
Defined.

(** X9. The rows process 0 keeps and the rows process 1 receives are the
    matrix, split without loss or overlap; the received block has
    [N - N/2] rows of [M] entries, and its cell [(i, j)] is the cell
    [(N/2 + i, j)] of the matrix. *)
Theorem received_block_partition m N M :
  has_shape N M m → 0 ≤ N →
  take (Z.to_nat (half_of N)) m ++ received_block m N M = m ∧
  has_shape (N - half_of N) M (received_block m N M) ∧
  ∀ i j, 0 ≤ i < N - half_of N → 0 ≤ j < M →
         cell (received_block m N M) i j = cell m (half_of N + i) j.
Proof.
  intros Hm HN. split_and!.
  - rewrite received_block_drop by done. apply take_drop.
  - by apply received_block_shape.
  - intros i j. apply received_block_cell.
Qed.

Lemma received_block_partition_witness :
  take (Z.to_nat (half_of 3)) [[1; 2]; [3; 4]; [5; 6]]
    ++ received_block [[1; 2]; [3; 4]; [5; 6]] 3 2
  = [[1; 2]; [3; 4]; [5; 6]] ∧
  has_shape (3 - half_of 3) 2 (received_block [[1; 2]; [3; 4]; [5; 6]] 3 2) ∧
  ∀ i j, 0 ≤ i < 3 - half_of 3 → 0 ≤ j < 2 →
         cell (received_block [[1; 2]; [3; 4]; [5; 6]] 3 2) i j
         = cell [[1; 2]; [3; 4]; [5; 6]] (half_of 3 + i) j.
Proof.
  apply (received_block_partition [[1; 2]; [3; 4]; [5; 6]] 3 2).
  - split; [reflexivity|repeat constructor].
  - lia.
Defined.

(** X10. A result of the two workers is either one without a window (its
    column is -1 and its score negative infinity) or a window of the whole
    matrix, in global coordinates, with the score of that window, which is
    above negative infinity. *)
Theorem coordinated_search_reports_window log m N M K sched0 sched1 :
  0 ≤ N →
  omp_schedule (half_of N) M K sched0 →
  omp_schedule (N - half_of N) M K sched1 →
  let r := coordinated_search log m N M K sched0 sched1 in
  (col r = -1 ∧ max_log_product r = neg_infinity) ∨
  (0 ≤ row r ≤ N - K ∧ 0 ≤ col r ≤ M - K ∧
   max_log_product r = calculate_log_product_submatrix log m (row r) (col r) K ∧
   gt (max_log_product r) neg_infinity = true).
Proof. apply coordinated_search_cases. Qed.

Lemma coordinated_search_reports_window_witness :
  let m := [[2; 2]; [3; 3]; [3; 3]; [2; 2]] in
  let r := coordinated_search log_sample m 4 2 2 (sequential 2 2 2) (two_threads 2 2 2 1) in
  (col r = -1 ∧ max_log_product r = neg_infinity) ∨
  (0 ≤ row r ≤ 4 - 2 ∧ 0 ≤ col r ≤ 2 - 2 ∧
   max_log_product r = calculate_log_product_submatrix log_sample m (row r) (col r) 2 ∧
   gt (max_log_product r) neg_infinity = true).
Proof.
  apply (coordinated_search_reports_window
           log_sample [[2; 2]; [3; 3]; [3; 3]; [2; 2]] 4 2 2).
  - lia.
  - apply (omp_schedule_sequential 2 2 2).
  - apply (omp_schedule_two_threads 2 2 2).
Defined.

(** X11. The score of the two workers is greater than or equal to the score
    of every window that lies inside one of the two row blocks. *)
Theorem coordinated_search_optimal_inside_blocks log m N M K sched0 sched1 i j :
  log_sane log → 0 ≤ N →
  omp_schedule (half_of N) M K sched0 →
  omp_schedule (N - half_of N) M K sched1 →
  (0 ≤ i ∧ i + K ≤ half_of N) ∨ (half_of N ≤ i ∧ i + K ≤ N) →
  0 ≤ j ≤ M - K →
  ge (max_log_product (coordinated_search log m N M K sched0 sched1))
     (calculate_log_product_submatrix log m i j K) = true.
Proof. apply coordinated_search_covers_blocks. Qed.

Lemma coordinated_search_optimal_inside_blocks_witness :
  let m := [[2; 2]; [3; 3]; [3; 3]; [2; 2]] in
  ge (max_log_product
        (coordinated_search log_sample m 4 2 2 (sequential 2 2 2) (two_threads 2 2 2 1)))
     (calculate_log_product_submatrix log_sample m 2 0 2) = true.
Proof.
  apply (coordinated_search_optimal_inside_blocks
           log_sample [[2; 2]; [3; 3]; [3; 3]; [2; 2]] 4 2 2).
  - apply log_sample_sane.
  - lia.
  - apply (omp_schedule_sequential 2 2 2).
  - apply (omp_schedule_two_threads 2 2 2).
  - right. vm_compute. split; discriminate.
  - lia.
Defined.

(** X12. The score of the two workers is never above the score of the
    search over the unsplit matrix. *)
Theorem coordinated_search_never_above_unsplit log m N M K sched0 sched1 sched :
  log_sane log → 0 ≤ N →
  omp_schedule (half_of N) M K sched0 →
  omp_schedule (N - half_of N) M K sched1 →
  omp_schedule N M K sched →
  ge (max_log_product (find_best_submatrix_parallel log m N M K sched))
     (max_log_product (coordinated_search log m N M K sched0 sched1)) = true.
Proof.
  intros Hlog HN. apply coordinated_search_below_unsplit; [done|].
  by apply half_of_bounds.
Qed.

Lemma coordinated_search_never_above_unsplit_witness :
  let m := [[2; 2]; [3; 3]; [3; 3]; [2; 2]] in
  ge (max_log_product
        (find_best_submatrix_parallel log_sample m 4 2 2 (sequential 4 2 2)))
     (max_log_product
        (coordinated_search log_sample m 4 2 2 (sequential 2 2 2) (sequential 2 2 2)))
  = true.
Proof.
  apply (coordinated_search_never_above_unsplit
           log_sample [[2; 2]; [3; 3]; [3; 3]; [2; 2]] 4 2 2).
  - apply log_sample_sane.
  - lia.
  - apply (omp_schedule_sequential 2 2 2).
  - apply (omp_schedule_sequential 2 2 2).
  - apply omp_schedule_sequential.
Defined.

(** X13. With [K = 1] no window lies across the cut, and the two workers
    return the same score as the search over the unsplit matrix. *)
Theorem coordinated_search_exact_for_K1 log m N M sched0 sched1 sched :
  log_sane log → 0 ≤ N →
  omp_schedule (half_of N) M 1 sched0 →
  omp_schedule (N - half_of N) M 1 sched1 →
  omp_schedule N M 1 sched →
  max_log_product (coordinated_search log m N M 1 sched0 sched1)
  = max_log_product (find_best_submatrix_parallel log m N M 1 sched).
Proof. intros. by apply coordinated_search_equal_K1. Qed.

Lemma coordinated_search_exact_for_K1_witness :
  max_log_product
    (coordinated_search log_sample scenario 4 4 1 (sequential 2 4 1) (two_threads 2 4 1 3))
  = max_log_product
      (find_best_submatrix_parallel log_sample scenario 4 4 1 (two_threads 4 4 1 5)).
Proof.
  apply (coordinated_search_exact_for_K1 log_sample scenario 4 4).
  - apply log_sample_sane.
  - lia.
  - apply (omp_schedule_sequential 2 4 1).
  - apply (omp_schedule_two_threads 2 4 1).
  - apply omp_schedule_two_threads.
Defined.





(** X16. When [rand] returns no negative number, the generator leaves the
    shape of the block as it was and every entry between [MIN_VALUE] and
    [MAX_VALUE + 1], in both programs. *)
Theorem generate_random_matrix_shape_range
    (rng : Type) (srand : Z → rng) (rand : rng → Z * rng)
    (now N M : Z) (s : matrix * rng) :
  (∀ g, 0 ≤ (rand g).1) → has_shape N M s.1 →
  (has_shape N M (generate_random_matrix srand rand s N M).1 ∧
   ∀ i j, 0 ≤ i < N → 0 ≤ j < M →
     MIN_VALUE ≤ cell (generate_random_matrix srand rand s N M).1 i j ≤ MAX_VALUE + 1) ∧
  (has_shape N M (generate_random_matrix_1 srand rand now s N M).1 ∧
   ∀ i j, 0 ≤ i < N → 0 ≤ j < M →
     MIN_VALUE ≤ cell (generate_random_matrix_1 srand rand now s N M).1 i j
     ≤ MAX_VALUE + 1).
Proof.
  intros Hrand Hs. unfold generate_random_matrix, generate_random_matrix_1.
  split; by apply generate_from_shape_range.
Qed.

Lemma generate_random_matrix_shape_range_witness :
  let s := (zero_block 3 4, glibc_srand 1) in
  (has_shape 3 4 (generate_random_matrix glibc_srand glibc_rand s 3 4).1 ∧
   ∀ i j, 0 ≤ i < 3 → 0 ≤ j < 4 →
     MIN_VALUE ≤ cell (generate_random_matrix glibc_srand glibc_rand s 3 4).1 i j
     ≤ MAX_VALUE + 1) ∧
  (has_shape 3 4 (generate_random_matrix_1 glibc_srand glibc_rand 7 s 3 4).1 ∧
   ∀ i j, 0 ≤ i < 3 → 0 ≤ j < 4 →
     MIN_VALUE ≤ cell (generate_random_matrix_1 glibc_srand glibc_rand 7 s 3 4).1 i j
     ≤ MAX_VALUE + 1).
Proof.
  apply (generate_random_matrix_shape_range (list Z) glibc_srand glibc_rand 7 3 4).
  - apply glibc_rand_nonneg.
  - split; [reflexivity|repeat constructor].
Defined.

(** X17. [print_submatrix] on a window inside the block writes the entries
    of the [K] rows from [start_row], columns [start_col] to
    [start_col + K - 1], row by row, and marks with a star as many of them
    as [calculate_log_product_submatrix] counts in [odd_count]. *)
Theorem print_submatrix_shows_scored_cells log (m : matrix) N M r c K :
  has_shape N M m → 0 ≤ r → 0 ≤ c → 0 ≤ K → r + K ≤ N → c + K ≤ M →
  printed_numbers (print_submatrix m r c K)
  = concat ((λ l, take (Z.to_nat K) (drop (Z.to_nat c) l))
              <$> take (Z.to_nat K) (drop (Z.to_nat r) m)) ∧
  Z.of_nat (printed_stars (print_submatrix m r c K)) = (score_loops log m r c K).2.
Proof.
  intros Hm Hr Hc HK HrN HcM. split; [|apply print_submatrix_stars].
  rewrite print_submatrix_numbers. unfold window_cells.
  rewrite bind_concat_fmap. f_equal.
  erewrite (list_fmap_ext _ (λ i, (λ j, cell m i j) <$> seqZ c K));
    [|intros ? i _; apply bind_singleton_fmap].
  by apply (cells_slice m N M).
Qed.

Lemma print_submatrix_shows_scored_cells_witness :
  let m := [[1; 2; 3]; [4; 5; 6]; [7; 8; 9]] in
  printed_numbers (print_submatrix m 1 1 2)
  = concat ((λ l, take (Z.to_nat 2) (drop (Z.to_nat 1) l))
              <$> take (Z.to_nat 2) (drop (Z.to_nat 1) m)) ∧
  Z.of_nat (printed_stars (print_submatrix m 1 1 2))
  = (score_loops log_sample m 1 1 2).2.
Proof.
  apply (print_submatrix_shows_scored_cells log_sample _ 3 3 1 1 2); try lia.
  split; [reflexivity|repeat constructor].
Defined.

(** X18. [print_submatrix] marks no entry exactly when
    [calculate_log_product_submatrix] scores the window negative
    infinity. *)
Theorem print_submatrix_no_star_iff_unscored log (m : matrix) r c K :
  log_sane log →
  printed_stars (print_submatrix m r c K) = 0%nat ↔
  calculate_log_product_submatrix log m r c K = neg_infinity.
Proof.
  intros Hlog. rewrite calculate_neg_infinity_iff by done.
  pose proof (print_submatrix_stars log m r c K) as Hs.
  rewrite score_loops_window_cells, foldl_score_value in Hs. simpl in Hs.
  rewrite <-length_zero_iff_nil. lia.
Qed.

Lemma print_submatrix_no_star_iff_unscored_witness :
  printed_stars (print_submatrix [[2; 4]; [0; 6]] 0 0 2) = 0%nat ↔
  calculate_log_product_submatrix log_sample [[2; 4]; [0; 6]] 0 0 2 = neg_infinity.
Proof.
  apply (print_submatrix_no_star_iff_unscored log_sample), log_sample_sane.
Defined.

(** X19. [print_matrix] writes the first [max_print] entries of the first
    [max_print] rows (all of them where there are fewer), and the line of
    dots after the rows exactly when the block has more than [max_print]
    rows. *)
Theorem print_matrix_top_left_corner (m : matrix) N M max_print :
  has_shape N M m → 0 ≤ max_print →
  printed_numbers (print_matrix m N M max_print)
  = concat (take (Z.to_nat max_print) <$> take (Z.to_nat max_print) m) ∧
  (MoreRows ∈ print_matrix m N M max_print ↔ max_print < N).
Proof.
  intros Hm Hmax. split; [by apply print_matrix_corner|].
  rewrite print_matrix_tokens, !elem_of_app, list_elem_of_bind.
  destruct (Z.gtb_spec N max_print) as [HN|HN].
  - split; [lia|]. intros _. right. right. left. apply list_elem_of_singleton. done.
  - split; [|lia].
    intros [H|[(i & H & _)|[H|H]]]; exfalso.
    + by apply list_elem_of_singleton in H.
    + rewrite !elem_of_app, list_elem_of_bind in H.
      destruct H as [(j & H & _)|[H|H]].
      * by apply list_elem_of_singleton in H.
      * destruct (M >? max_print); [by apply list_elem_of_singleton in H|by apply elem_of_nil in H].
      * by apply list_elem_of_singleton in H.
    + by apply elem_of_nil in H.
    + by apply list_elem_of_singleton in H.
Qed.

Lemma print_matrix_top_left_corner_witness :
  let m := [[1; 2; 3]; [4; 5; 6]; [7; 8; 9]] in
  printed_numbers (print_matrix m 3 3 2)
  = concat (take (Z.to_nat 2) <$> take (Z.to_nat 2) m) ∧
  (MoreRows ∈ print_matrix m 3 3 2 ↔ 2 < 3).
Proof.
  apply (print_matrix_top_left_corner _ 3 3 2); [|lia].
  split; [reflexivity|repeat constructor].
Defined.

(** X20. The preview that [main] prints after generating the matrix shows
    every entry when the matrix has at most 10 rows and at most 10 columns,
    and the first 5 entries of the first 5 rows otherwise, also when only
    one of the two dimensions is above 10. *)
Theorem print_preview_whole_or_corner (m : matrix) N M :
  has_shape N M m →
  (N ≤ 10 → M ≤ 10 → printed_numbers (print_preview m N M) = concat m) ∧
  (10 < N ∨ 10 < M →
   printed_numbers (print_preview m N M) = concat (take 5 <$> take 5 m)).
Proof.
  intros Hm. pose proof Hm as [Hlen Hrows]. unfold print_preview. split.
  - intros HN HM.
    destruct (Z.leb_spec N 10), (Z.leb_spec M 10); try lia. simpl.
    rewrite (print_matrix_corner m N M 10) by (done || lia).
    rewrite take_ge by lia. f_equal.
    rewrite <-(list_fmap_id m) at 2.
    apply Forall_fmap_ext_1, Forall_forall. intros l Hl.
    rewrite Forall_forall in Hrows. pose proof (Hrows l Hl).
    rewrite take_ge; [done|lia].
  - intros HNM.
    destruct (Z.leb_spec N 10), (Z.leb_spec M 10); try lia; simpl;
      by rewrite (print_matrix_corner m N M 5) by (done || lia).
Qed.

Lemma print_preview_whole_or_corner_witness :
  let m := zero_block 3 12 in
  (3 ≤ 10 → 12 ≤ 10 → printed_numbers (print_preview m 3 12) = concat m) ∧
  (10 < 3 ∨ 10 < 12 →
   printed_numbers (print_preview m 3 12) = concat (take 5 <$> take 5 m)).
Proof.
  apply (print_preview_whole_or_corner _ 3 12).
  split; [reflexivity|repeat constructor].
Defined.
